(** * Canonical Huffman trees of the bzip2 decoder (compress/bzip2_data2/huffman.go)

    A shallow embedding of [newHuffmanTree], [buildHuffmanNode] and [Decode],
    and the properties of them that the specification states.

    Conventions of the embedding.
    - Go's fixed-width unsigned integers are [Z] with the wrap-around written
      at every operation that can wrap ([uint8], [uint16], [uint32]).
    - Go's [int] (slice lengths, the indices [l], [r], [firstRightIndex] and
      the counter [nextNode]) is [Z] without wrap-around: every such value is
      bounded in magnitude by the square of a slice length.
    - Slices are lists; an index expression is [index], which panics out of
      range as Go does.  An assignment through the pointer [node] is an
      update of the tree's node list at the index the pointer was taken at.
    - A Go call either returns or panics; the recursion of
      [buildHuffmanNode] is unfolded up to a [depth] given as an argument, so
      that the depth of the recursion can be stated: [TooDeep] is the answer
      of a run that needs more nested calls than [depth]. *)

From Stdlib Require Import ZArith Lia String.
From stdpp Require Import base list sorting.

Local Open Scope Z_scope.

(** ** Machine integers *)

Definition uint8 (z : Z) : Z := z mod 2 ^ 8.
Definition uint16 (z : Z) : Z := z mod 2 ^ 16.
Definition uint32 (z : Z) : Z := z mod 2 ^ 32.

(** [x << s] at type uint32 with an unsigned shift count [s]: a count of 32
    or more shifts every bit out. *)
Definition shl32 (x s : Z) : Z :=
  if s <? 32 then uint32 (Z.shiftl x s) else 0.

(** ** Outcomes of a call *)

Inductive fault : Type :=
| Panic (msg : string)        (* a Go run-time panic or an explicit panic *)
| StreamError (msg : string)  (* the bit source failed *)
| TooDeep.                    (* more nested calls than the given depth *)

Inductive result (A : Type) : Type :=
| Done (a : A)
| Fault (f : fault).
Arguments Done {A} a.
Arguments Fault {A} f.

Global Instance result_bind : MBind result := λ A B k m,
  match m with
  | Done a => k a
  | Fault f => Fault f
  end.

(** [xs[i]] for a slice [xs] and an [int] index. *)
Definition index {A} (xs : list A) (i : Z) : result A :=
  if i <? 0 then Fault (Panic "index out of range")
  else match xs !! Z.to_nat i with
       | Some x => Done x
       | None => Fault (Panic "index out of range")
       end.

(** Go's [error]: [nil] or a [StructuralError] with its text. *)
Definition error : Type := option string.

(** ** The data model *)

(** [huffmanNode]; the fields [left] and [right] are [node_left] and
    [node_right] here. *)
Record huffmanNode : Type := mkNode {
  node_left : Z;
  node_right : Z;
  leftValue : Z;
  rightValue : Z
}.

Definition zeroNode : huffmanNode := mkNode 0 0 0 0.

Record huffmanTree : Type := mkTree {
  nodes : list huffmanNode;
  nextNode : Z
}.

Definition invalidNodeValue : Z := 0xffff.

(** [huffmanSymbolLengthPair]; its fields [value] and [length] are
    [pair_value] and [pair_length] here. *)
Record huffmanSymbolLengthPair : Type := mkPair {
  pair_value : Z;
  pair_length : Z
}.

(** [huffmanCodes]: three slices of one length, read at one index. *)
Record huffmanCodes : Type := mkCodes {
  code : list Z;
  codeLen : list Z;
  value : list Z
}.

(** The entries of a [huffmanCodes], one triple (code, codeLen, value) per
    index, and back. *)
Definition row : Type := Z * Z * Z.
Definition row_code (e : row) : Z := e.1.1.
Definition row_len (e : row) : Z := e.1.2.
Definition row_value (e : row) : Z := e.2.

Definition rows (h : huffmanCodes) : list row :=
  zip (zip (code h) (codeLen h)) (value h).
Definition of_rows (es : list row) : huffmanCodes :=
  mkCodes (row_code <$> es) (row_len <$> es) (row_value <$> es).

(** ** Sorting *)

(** The comparison closure given to [sort.Slice] in [newHuffmanTree]. *)
Definition pairLess (p q : huffmanSymbolLengthPair) : bool :=
  if pair_length p <? pair_length q then true
  else if pair_length q <? pair_length p then false
  else if pair_value p <? pair_value q then true
  else false.

(** [p] may stand before [q] in a slice sorted by [pairLess]. *)
Definition pairLe (p q : huffmanSymbolLengthPair) : Prop :=
  pairLess q p = false.

Global Instance pairLe_dec p q : Decision (pairLe p q).
Proof. unfold pairLe. apply _. Defined.

(** [sort.Slice(pairs, less)].  Two pairs that [pairLess] does not order are
    equal, so every sorting algorithm returns this slice
    ([sortPairs_unique]). *)
Definition sortPairs (ps : list huffmanSymbolLengthPair)
  : list huffmanSymbolLengthPair :=
  merge_sort pairLe ps.

(** [huffmanCodes.Less] compares the codes alone. *)
Definition codeLe (e1 e2 : row) : Prop := row_code e1 ≤ row_code e2.

Global Instance codeLe_dec e1 e2 : Decision (codeLe e1 e2).
Proof. unfold codeLe. apply _. Defined.

(** [sort.Sort(&codes)].  The order [sort.Sort] leaves between entries of
    equal code is not fixed by its contract, so the development is
    parametric in the algorithm: a [sorter] is any function that permutes the
    entries (all three slices alike, as [Swap] does) into ascending code
    order. *)
Record sorter : Type := mkSorter {
  sort_rows : list row → list row;
  sort_perm : ∀ es, sort_rows es ≡ₚ es;
  sort_sorted : ∀ es, Sorted codeLe (sort_rows es)
}.

Definition sort_Sort (S : sorter) (h : huffmanCodes) : huffmanCodes :=
  of_rows (sort_rows S (rows h)).

(** The methods of [huffmanCodes] that [sort.Sort] calls.  They have pointer
    receivers: [Swap] returns the codes after the call. *)
Definition Len (h : huffmanCodes) : Z := Z.of_nat (length (code h)).


(** [xs[i], xs[j] = xs[j], xs[i]]: the two operands on the right are read
    first, then [xs[i]] is written, then [xs[j]]. *)
Definition exchange {A} (xs : list A) (i j : Z) : result (list A) :=
  xj ← index xs j;
  xi ← index xs i;
  Done (<[Z.to_nat j := xi]> (<[Z.to_nat i := xj]> xs)).

Definition Swap (h : huffmanCodes) (i j : Z) : result huffmanCodes :=
  c ← exchange (code h) i j;
  cl ← exchange (codeLen h) i j;
  v ← exchange (value h) i j;
  Done (mkCodes c cl v).

(** The three slices of a [huffmanCodes] have one length, as
    [newHuffmanTree] makes them. *)
Definition aligned (h : huffmanCodes) : Prop :=
  length (codeLen h) = length (code h) ∧ length (value h) = length (code h).

(** ** Construction: [newHuffmanTree] *)

(** The first loop of [newHuffmanTree]: symbol [i] paired with its length. *)
Definition makePairs (lengths : list Z) : list huffmanSymbolLengthPair :=
  imap (λ i len, mkPair (uint16 (Z.of_nat i)) len) lengths.

(** The code-assignment loop, [for i := len(pairs) - 1; i >= 0; i--].  It
    runs from the last pair to the first, so the entries of the pairs behind
    [p] are written before the entry of [p]: the result carries the entries
    written so far and the variables [code] and [length] after them. *)
Fixpoint assignLoop (pairs : list huffmanSymbolLengthPair)
  : list row * (Z * Z) :=
  match pairs with
  | [] => ([], (0, 32))
  | p :: ps =>
      let '(es, (code, length)) := assignLoop ps in
      let length := if pair_length p <? length then pair_length p else length in
      ((code, length, pair_value p) :: es,
       (uint32 (code + shl32 1 (uint8 (32 - length))), length))
  end.

Definition assignCodes (pairs : list huffmanSymbolLengthPair) : huffmanCodes :=
  of_rows (assignLoop pairs).1.

(** The search loop of [buildHuffmanNode]:
    [for i := l; i < r; i++ { if codes.code[i]&test != 0 { firstRightIndex = i; break } }],
    with [steps] iterations left and [dflt] the value [firstRightIndex] has
    when no iteration breaks. *)
Fixpoint findFirstRight (codes : list Z) (test : Z) (i : Z) (steps : nat)
    (dflt : Z) : result Z :=
  match steps with
  | O => Done dflt
  | S steps =>
      c ← index codes i;
      if Z.land c test =? 0 then findFirstRight codes test (i + 1) steps dflt
      else Done i
  end.

(** A write through [node := &t.nodes[k]]. *)
Definition setNode (t : huffmanTree) (k : Z) (f : huffmanNode → huffmanNode)
  : huffmanTree :=
  mkTree (alter f (Z.to_nat k) (nodes t)) (nextNode t).

Definition setLeft (i : Z) (nd : huffmanNode) : huffmanNode :=
  mkNode i (node_right nd) (leftValue nd) (rightValue nd).
Definition setRight (i : Z) (nd : huffmanNode) : huffmanNode :=
  mkNode (node_left nd) i (leftValue nd) (rightValue nd).
Definition setLeftValue (v : Z) (nd : huffmanNode) : huffmanNode :=
  mkNode (node_left nd) (node_right nd) v (rightValue nd).
Definition setRightValue (v : Z) (nd : huffmanNode) : huffmanNode :=
  mkNode (node_left nd) (node_right nd) (leftValue nd) v.

(** [buildHuffmanNode(t, codes, level, l, r)]: the tree after the call and
    the two results [(nodeIndex, err)]. *)
Fixpoint buildHuffmanNode (depth : nat) (t : huffmanTree) (codes : huffmanCodes)
    (level l r : Z) : result (huffmanTree * (Z * error)) :=
  match depth with
  | O => Fault TooDeep
  | S depth =>
      let test := shl32 1 (uint32 (31 - level)) in
      firstRightIndex ←
        findFirstRight (code codes) test l (Z.to_nat (r - l)) (r - l);
      if (firstRightIndex - l =? 0) || (r - firstRightIndex =? 0) then
        if Z.of_nat (length (code codes)) <? 2 then
          Done (t, (0, Some "empty Huffman tree"%string))
        else if level =? 31 then
          Done (t, (0, Some "equal symbols in Huffman tree"%string))
        else if firstRightIndex - l =? 0 then
          buildHuffmanNode depth t codes (uint32 (level + 1)) firstRightIndex r
        else
          buildHuffmanNode depth t codes (uint32 (level + 1)) l firstRightIndex
      else
        let nodeIndex := uint16 (nextNode t) in
        let k := nextNode t in
        _ ← index (nodes t) k;
        let t := mkTree (nodes t) (k + 1) in
        '(t, err) ←
          (if firstRightIndex - l =? 1 then
             let t := setNode t k (setLeft invalidNodeValue) in
             v ← index (value codes) l;
             Done (setNode t k (setLeftValue v), None)
           else
             '(t, (i, err)) ←
               buildHuffmanNode depth t codes (uint32 (level + 1)) l firstRightIndex;
             Done (setNode t k (setLeft i), err));
        match err with
        | Some _ => Done (t, (nodeIndex, err))
        | None =>
            '(t, err) ←
              (if r - firstRightIndex =? 1 then
                 let t := setNode t k (setRight invalidNodeValue) in
                 v ← index (value codes) firstRightIndex;
                 Done (setNode t k (setRightValue v), None)
               else
                 '(t, (i, err)) ←
                   buildHuffmanNode depth t codes (uint32 (level + 1)) firstRightIndex r;
                 Done (setNode t k (setRight i), err));
            Done (t, (nodeIndex, err))
        end
  end.

(** [newHuffmanTree(lengths)], its recursion unfolded to [depth] nested
    calls of [buildHuffmanNode]. *)
Definition newHuffmanTree (S : sorter) (depth : nat) (lengths : list Z)
  : result (huffmanTree * error) :=
  if Z.of_nat (length lengths) <? 2 then
    Fault (Panic "newHuffmanTree: too few symbols")
  else
    let pairs := sortPairs (makePairs lengths) in
    let codes := sort_Sort S (assignCodes pairs) in
    let t := mkTree (replicate (length (code codes)) zeroNode) 0 in
    '(t, (_, err)) ←
      buildHuffmanNode depth t codes 0 0 (Z.of_nat (length (code codes)));
    Done (t, err).

(** ** Decoding: [Decode] *)

(** Modelled from the spec: the type [bitReader], whose declaration is not
    among the sources.  [Decode] reads its fields [n] (a uint64 holding the
    buffered bits) and [bits] (how many of them are unread), here [br_n] and
    [br_bits], and calls its method [ReadBits].  [br_rest] stands for the
    bit source behind the buffer: the bits of the underlying byte reader
    that were not buffered yet. *)
Record bitReader : Type := mkReader {
  br_n : Z;
  br_bits : Z;
  br_rest : list bool
}.

(** Modelled from the spec: one bit of [bitReader.ReadBits], which is not
    among the sources.  Buffered bits come first, then those of the
    underlying reader; "fails/signals exhaustion if insufficient bits
    remain". *)
Definition readBit (br : bitReader) : result (Z * bitReader) :=
  if 0 <? br_bits br then
    let bits := br_bits br - 1 in
    Done (Z.land (Z.shiftr (br_n br) bits) 1, mkReader (br_n br) bits (br_rest br))
  else
    match br_rest br with
    | [] => Fault (StreamError "unexpected EOF")
    | b :: rest => Done (Z.b2z b, mkReader (br_n br) (br_bits br) rest)
    end.

(** Modelled from the spec: [bitReader.ReadBits], which is not among the
    sources.  "read_bits(count) returns the next count bits as an unsigned
    integer, most-significant bit first, advancing the stream position;
    fails/signals exhaustion if insufficient bits remain." *)
Fixpoint ReadBits_from (acc : Z) (count : nat) (br : bitReader)
  : result (Z * bitReader) :=
  match count with
  | O => Done (acc, br)
  | S count =>
      '(b, br) ← readBit br;
      ReadBits_from (2 * acc + b) count br
  end.

Definition ReadBits (br : bitReader) (count : nat) : result (Z * bitReader) :=
  ReadBits_from 0 count br.

(** The loop of [Decode], entered with [nodeIndex] and run for at most
    [steps] iterations. *)
Fixpoint Decode_loop (steps : nat) (t : huffmanTree) (br : bitReader)
    (nodeIndex : Z) : result (Z * bitReader) :=
  match steps with
  | O => Fault TooDeep
  | S steps =>
      node ← index (nodes t) nodeIndex;
      '(bit, br) ←
        (if 0 <? br_bits br then
           let bits := br_bits br - 1 in
           Done (Z.land (uint16 (Z.shiftr (br_n br) (Z.land bits 63))) 1,
                 mkReader (br_n br) bits (br_rest br))
         else
           '(b, br) ← ReadBits br 1;
           Done (uint16 b, br));
      let l := node_left node in
      let r := node_right node in
      let nodeIndex := if bit =? 1 then l else r in
      if nodeIndex =? invalidNodeValue then
        let l := leftValue node in
        let r := rightValue node in
        Done (if bit =? 1 then l else r, br)
      else Decode_loop steps t br nodeIndex
  end.

(** The bits a reader can still deliver. *)
Definition available (br : bitReader) : nat :=
  (Z.to_nat (br_bits br) + length (br_rest br))%nat.

(** [t.Decode(br)]: the symbol and the reader after the call.  Every
    iteration of the loop takes one bit, so the loop runs at most once more
    than there are bits ([Decode_terminates]). *)
Definition Decode (t : huffmanTree) (br : bitReader) : result (Z * bitReader) :=
  Decode_loop (S (available br)) t br 0.

(** A reader with nothing buffered, over the bits [bs]. *)
Definition feed (bs : list bool) : bitReader := mkReader 0 0 bs.

(** The bits a reader has still to deliver, in the order it delivers them:
    the [br_bits] low bits of [br_n] from the highest down, then the bits of
    the underlying reader. *)
Definition buffered (n bits : Z) : list bool :=
  (λ j : nat, Z.testbit n (Z.of_nat j)) <$> reverse (seq 0 (Z.to_nat bits)).

Definition pending (br : bitReader) : list bool :=
  buffered (br_n br) (br_bits br) ++ br_rest br.

(** [br_bits] counts bits of a uint64. *)
Definition wf_reader (br : bitReader) : Prop := 0 ≤ br_bits br ≤ 64.

(** The child slot a bit selects in [Decode]: [left] for 1, [right] for 0. *)
Definition child (nd : huffmanNode) (b : bool) : Z :=
  if b then node_left nd else node_right nd.
Definition childValue (nd : huffmanNode) (b : bool) : Z :=
  if b then leftValue nd else rightValue nd.


(** ** The codes of the symbols *)

(** The entries the code-assignment loop of [newHuffmanTree] writes for the
    array [lengths], before they are sorted by code. *)
Definition assigned (lengths : list Z) : list row :=
  (assignLoop (sortPairs (makePairs lengths))).1.

(** The code and the code length of the first entry that carries the
    symbol [s]. *)
Fixpoint lookupSymbol (s : Z) (es : list row) : option (Z * Z) :=
  match es with
  | [] => None
  | e :: es =>
      if row_value e =? s then Some (row_code e, row_len e)
      else lookupSymbol s es
  end.

(** The code [newHuffmanTree] assigns to the symbol [s]: a 32-bit value
    whose [len] highest bits are the code. *)
Definition symbolCode (lengths : list Z) (s : Z) : option (Z * Z) :=
  lookupSymbol s (assigned lengths).

(** The [len] highest of the 32 bits of [c], highest first. *)
Definition codeBits (c len : Z) : list bool :=
  (λ j, Z.testbit c (31 - j)) <$> seqZ 0 len.

(** The Kraft sum of the lengths, scaled by 2^32: a code of length [len]
    takes [2 ^ (32 - len)] of the [2 ^ 32] code values. *)
Definition kraft (lengths : list Z) : Z :=
  foldr (λ len acc, 2 ^ (32 - len) + acc) 0 lengths.

(** Every length is a code length: between 1 and 32. *)
Definition lengthsInRange (lengths : list Z) : Prop :=
  Forall (λ len, 1 ≤ len ≤ 32) lengths.

(** A complete code of 65537 symbols: symbol 0 has a one-bit code, the
    symbols 1, ..., 65536 have codes of 17 bits. *)
Definition manyLengths : list Z := 1 :: replicate (Z.to_nat 65536) 17.

(** ** The two sides of a split *)

(** The entries [l], ..., [r - 1] of a slice. *)
Definition slice {A} (xs : list A) (l r : Z) : list A :=
  take (Z.to_nat (r - l)) (drop (Z.to_nat l) xs).


(** ** A sorting algorithm: merge sort *)

Global Instance codeLe_total : Total codeLe.
Proof. intros e1 e2. unfold codeLe. lia. Qed.

Global Instance codeLe_trans : Transitive codeLe.
Proof. intros e1 e2 e3. unfold codeLe. lia. Qed.

(** Merge sort is one [sorter]; it is the one the examples run with. *)
Definition mergeSorter : sorter :=
  mkSorter (merge_sort codeLe)
    (merge_sort_Permutation codeLe)
    (Sorted_merge_sort codeLe).

(** ** A second sorting algorithm *)

(** Ascending codes, and among equal codes descending symbols. *)
Definition tieLe (e1 e2 : row) : Prop :=
  row_code e1 < row_code e2 ∨
  (row_code e1 = row_code e2 ∧ row_value e2 ≤ row_value e1).

Global Instance tieLe_dec e1 e2 : Decision (tieLe e1 e2).
Proof. unfold tieLe. apply _. Defined.

Global Instance tieLe_total : Total tieLe.
Proof. intros e1 e2. unfold tieLe. lia. Qed.

Global Instance tieLe_trans : Transitive tieLe.
Proof. intros e1 e2 e3. unfold tieLe. lia. Qed.

Lemma Sorted_tieLe es : Sorted tieLe es → Sorted codeLe es.
Proof.
  induction 1 as [|e es Hs IH Hhd]; constructor; [done|].
  destruct Hhd as [|e' es' Hle]; constructor. unfold tieLe, codeLe in *. lia.
Qed.

(** Another [sorter]: merge sort that, unlike [mergeSorter], puts entries of
    equal code in the order of descending symbols. *)
Definition tieSorter : sorter :=
  mkSorter (merge_sort tieLe)
    (merge_sort_Permutation tieLe)
    (λ es, Sorted_tieLe _ (Sorted_merge_sort tieLe es)).

(** * Vocabulary of the proofs *)

(** ** One call of [buildHuffmanNode] and one iteration of [Decode] *)

(** The mask [test] of a call at [level]. *)
Definition testBit (level : Z) : Z := shl32 1 (uint32 (31 - level)).

(** One side of a normal split: a leaf written into node [k], or the sub-tree
    that the nested call [sub] built, linked from node [k]. *)
Definition buildSide (sub : result (huffmanTree * (Z * error)))
    (t : huffmanTree) (k : Z) (single : bool) (vs : list Z) (vi : Z)
    (setI setV : Z → huffmanNode → huffmanNode)
  : result (huffmanTree * error) :=
  if single then
    v ← index vs vi;
    Done (setNode (setNode t k (setI invalidNodeValue)) k (setV v), None)
  else
    '(t1, (i, err)) ← sub;
    Done (setNode t1 k (setI i), err).

Definition setIndex (side : bool) : Z → huffmanNode → huffmanNode :=
  if side then setLeft else setRight.
Definition setValue (side : bool) : Z → huffmanNode → huffmanNode :=
  if side then setLeftValue else setRightValue.

(** The two ways a call returns: through the degenerate branch, without a
    node of its own, or after a normal split at [fri], with node
    [nextNode t]. *)
Inductive buildStep (depth : nat) (t : huffmanTree) (codes : huffmanCodes)
    (level l r : Z) (t' : huffmanTree) (i : Z) (err : error) : Prop :=
| step_empty :
    Z.of_nat (length (code codes)) < 2 → t' = t → i = 0 →
    err = Some "empty Huffman tree"%string →
    buildStep depth t codes level l r t' i err
| step_equal :
    level = 31 → t' = t → i = 0 →
    err = Some "equal symbols in Huffman tree"%string →
    buildStep depth t codes level l r t' i err
| step_skip (fri l' r' : Z) :
    findFirstRight (code codes) (testBit level) l (Z.to_nat (r - l)) (r - l)
      = Done fri →
    fri - l = 0 ∨ r - fri = 0 →
    level ≠ 31 → r' - l' = r - l →
    buildHuffmanNode depth t codes (uint32 (level + 1)) l' r' = Done (t', (i, err)) →
    buildStep depth t codes level l r t' i err
| step_left_failed (fri : Z) (e : string) :
    findFirstRight (code codes) (testBit level) l (Z.to_nat (r - l)) (r - l)
      = Done fri →
    fri - l ≠ 0 → r - fri ≠ 0 →
    0 ≤ nextNode t < Z.of_nat (length (nodes t)) →
    buildSide (buildHuffmanNode depth (mkTree (nodes t) (nextNode t + 1)) codes
                 (uint32 (level + 1)) l fri)
      (mkTree (nodes t) (nextNode t + 1)) (nextNode t) (fri - l =? 1)
      (value codes) l setLeft setLeftValue = Done (t', Some e) →
    i = uint16 (nextNode t) → err = Some e →
    buildStep depth t codes level l r t' i err
| step_split (fri : Z) (tl : huffmanTree) :
    findFirstRight (code codes) (testBit level) l (Z.to_nat (r - l)) (r - l)
      = Done fri →
    fri - l ≠ 0 → r - fri ≠ 0 →
    0 ≤ nextNode t < Z.of_nat (length (nodes t)) →
    buildSide (buildHuffmanNode depth (mkTree (nodes t) (nextNode t + 1)) codes
                 (uint32 (level + 1)) l fri)
      (mkTree (nodes t) (nextNode t + 1)) (nextNode t) (fri - l =? 1)
      (value codes) l setLeft setLeftValue = Done (tl, None) →
    buildSide (buildHuffmanNode depth tl codes (uint32 (level + 1)) fri r)
      tl (nextNode t) (r - fri =? 1) (value codes) fri setRight setRightValue
      = Done (t', err) →
    i = uint16 (nextNode t) →
    buildStep depth t codes level l r t' i err.

(** The bit [Decode] takes in one iteration of its loop. *)
Definition Decode_bit (br : bitReader) : result (Z * bitReader) :=
  if 0 <? br_bits br then
    let bits := br_bits br - 1 in
    Done (Z.land (uint16 (Z.shiftr (br_n br) (Z.land bits 63))) 1,
          mkReader (br_n br) bits (br_rest br))
  else
    '(b, br) ← ReadBits br 1;
    Done (uint16 b, br).

(** ** The code-assignment loop on sorted pairs *)

Definition weight (ps : list huffmanSymbolLengthPair) : Z :=
  kraft (pair_length <$> ps).

(** The entries the loop writes when no pair is longer than 32 bits and the
    pairs are sorted: each code is the sum of the steps behind it. *)
Fixpoint codesOf (ps : list huffmanSymbolLengthPair) : list row :=
  match ps with
  | [] => []
  | p :: ps => (uint32 (weight ps), pair_length p, pair_value p) :: codesOf ps
  end.

Definition pairsInRange (ps : list huffmanSymbolLengthPair) : Prop :=
  Forall (λ p, 1 ≤ pair_length p ≤ 32) ps.

(** The pairs of a complete code, sorted. *)
Definition sortedPairs (lengths : list Z) : list huffmanSymbolLengthPair :=
  sortPairs (makePairs lengths).

(** ** Tilings of the code space *)

(** The code values an entry takes: [2 ^ (32 - codeLen)]. *)
Definition step (e : row) : Z := 2 ^ (32 - row_len e).

Definition span (es : list row) : Z := foldr (λ e acc, step e + acc) 0 es.

(** The entries lie side by side from [base] on in ascending order, each
    on a multiple of its own step. *)
Fixpoint tiles (base : Z) (es : list row) : Prop :=
  match es with
  | [] => True
  | e :: es =>
      row_code e = base ∧ 1 ≤ row_len e ≤ 32 ∧ (step e | base) ∧
      tiles (base + step e) es
  end.

(** ** The tree a node slice holds *)

(** A tree of leaves with symbols; [Node a b] has [a] under [left], the
    slot a read bit of 1 selects, and [b] under [right]. *)
Inductive htree : Type :=
| Leaf (v : Z)
| Node (a b : htree).

(** The nodes of the slice a tree takes: leaves take none. *)
Fixpoint inner (tr : htree) : Z :=
  match tr with
  | Leaf _ => 0
  | Node a b => 1 + inner a + inner b
  end.

(** A child slot (index, value) holds [a], whose nodes start at [pos]. *)
Definition slot (a : htree) (i v pos : Z) : Prop :=
  match a with
  | Leaf w => i = invalidNodeValue ∧ v = w
  | Node _ _ => i = uint16 pos
  end.

(** The slice [ns] holds the tree [tr] in the nodes [k], [k + 1], ..., in
    the order [buildHuffmanNode] fills them: a node, the nodes of its left
    side, the nodes of its right side. *)
Fixpoint repr (ns : list huffmanNode) (k : Z) (tr : htree) : Prop :=
  match tr with
  | Leaf _ => True
  | Node a b =>
      ∃ nd, ns !! Z.to_nat k = Some nd ∧
            slot a (node_left nd) (leftValue nd) (k + 1) ∧
            slot b (node_right nd) (rightValue nd) (k + 1 + inner a) ∧
            repr ns (k + 1) a ∧ repr ns (k + 1 + inner a) b
  end.

(** The slot of one side of [nd'] holds [a]; the other side is as in [nd]. *)
Definition sideHolds (side : bool) (a : htree) (pos : Z) (nd nd' : huffmanNode)
  : Prop :=
  if side then
    slot a (node_left nd') (leftValue nd') pos ∧
    node_right nd' = node_right nd ∧ rightValue nd' = rightValue nd
  else
    slot a (node_right nd') (rightValue nd') pos ∧
    node_left nd' = node_left nd ∧ leftValue nd' = leftValue nd.

(** Following bits down a tree: the symbol reached and the bits left. *)
Fixpoint walk (tr : htree) (bs : list bool) : option (Z * list bool) :=
  match tr with
  | Leaf v => Some (v, bs)
  | Node a b =>
      match bs with
      | [] => None
      | x :: bs => walk (if x then a else b) bs
      end
  end.

(** The bits that lead to an entry from bit position [p] on: the
    complements of the bits [p], ..., [codeLen - 1] of its code. *)
Definition stream (p : Z) (e : row) : list bool :=
  (λ j, negb (Z.testbit (row_code e) (31 - j))) <$> seqZ p (row_len e - p).

(** Every entry of [es] is reached in [tr] by its bits from [p] on. *)
Definition decodes (p : Z) (es : list row) (tr : htree) : Prop :=
  ∀ e rest, e ∈ es → walk tr (stream p e ++ rest) = Some (row_value e, rest).

(** What a call makes of a block: the entries [es], at least two, that
    tile the [2 ^ (32 - p)] code values from [base] on, where [base] is a
    multiple of that.  The call returns the node it was entered at, holding
    a tree that leads every entry of the block to its symbol. *)
Definition blockSpec (depth : nat) : Prop :=
  ∀ p base es pre post t,
    tiles base es → span es = 2 ^ (32 - p) → (2 ^ (32 - p) | base) → 0 ≤ p →
    (2 ≤ length es)%nat → 32 - p ≤ Z.of_nat depth →
    0 ≤ nextNode t →
    nextNode t + Z.of_nat (length es) - 1 ≤ Z.of_nat (length (nodes t)) →
    ∃ t' tr,
      buildHuffmanNode depth t (of_rows (pre ++ es ++ post)) p
        (Z.of_nat (length pre)) (Z.of_nat (length pre + length es))
      = Done (t', (uint16 (nextNode t), None)) ∧
      repr (nodes t') (nextNode t) tr ∧
      inner tr = Z.of_nat (length es) - 1 ∧
      decodes p es tr.

(** ** Sixteen-bit symbol values *)

Definition valuesBelow (ns : list huffmanNode) : Prop :=
  Forall (λ nd, 0 ≤ leftValue nd < 2 ^ 16 ∧ 0 ≤ rightValue nd < 2 ^ 16) ns.

Definition keepsValues (f : huffmanNode → huffmanNode) : Prop :=
  ∀ nd, (0 ≤ leftValue nd < 2 ^ 16 ∧ 0 ≤ rightValue nd < 2 ^ 16) →
        0 ≤ leftValue (f nd) < 2 ^ 16 ∧ 0 ≤ rightValue (f nd) < 2 ^ 16.

(** ** The leaves of a tree *)

(** The symbols at the leaves of a tree, from the leftmost to the
    rightmost. *)
Fixpoint leaves (tr : htree) : list Z :=
  match tr with
  | Leaf v => [v]
  | Node a b => leaves a ++ leaves b
  end.

(** What a call without error builds, when the nodes can be counted in 16
    bits: a tree whose leaves are the symbols of its range, in the order of
    the range. *)
Definition leavesSpec (depth : nat) (codes : huffmanCodes) : Prop :=
  ∀ level t l r t' i,
    buildHuffmanNode depth t codes level l r = Done (t', (i, None)) →
    0 ≤ nextNode t → nextNode t' ≤ 65535 → 0 ≤ l →
    ∃ tr, repr (nodes t') (nextNode t) tr ∧ inner tr = r - l - 1 ∧
          leaves tr = slice (value codes) l r.

(** ** Nodes that [Decode] can follow *)


(** The nodes [lo], ..., [hi - 1] link forward: each child slot holds the
    leaf sentinel or the index of a later node below [hi]. *)
Definition forward (ns : list huffmanNode) (lo hi : Z) : Prop :=
  ∀ k nd b, lo ≤ k < hi → ns !! Z.to_nat k = Some nd →
    child nd b = invalidNodeValue ∨ k < child nd b < hi.

(** ** A malformed length array *)

(** The lengths 1, 1, 2, 3, ..., 31, 32, 32, 32: every length is in 1..32,
    and symbols 0 and 33 receive the same code. *)
Definition overfull : list Z :=
  [1; 1] ++ (Z.of_nat <$> seq 2 30) ++ [32; 32; 32].

(** ** A length array on which the recursion runs away *)

(** The lengths 1, 1, 2, 3, ..., 31, 32, 32: every length is in 1..32, the
    code values wrap once, and symbols 0 and 33 receive the code 0. *)
Definition wrapping : list Z :=
  [1; 1] ++ (Z.of_nat <$> seq 2 30) ++ [32; 32].

(** * Properties *)

(** Case analysis on every integer comparison [a =? b] of the goal. *)
Ltac case_eqb :=
  repeat match goal with
         | |- context [?a =? ?b] => destruct (Z.eqb_spec a b)
         end.

(** ** The result monad *)

Lemma bind_Done {A B} (a : A) (k : A → result B) : (Done a ≫= k) = k a.
Proof. reflexivity. Qed.

(** ** Slices and machine integers *)

Lemma index_Done {A} (xs : list A) (i : Z) (x : A) :
  index xs i = Done x ↔ 0 ≤ i ∧ xs !! Z.to_nat i = Some x.
Proof.
  unfold index. destruct (Z.ltb_spec i 0).
  - split; [discriminate | lia].
  - destruct (xs !! Z.to_nat i) eqn:E; split; intros; destruct_and?;
      simplify_eq; auto with lia.
Qed.

Lemma index_in_range {A} (xs : list A) (i : Z) :
  0 ≤ i < Z.of_nat (length xs) → ∃ x, index xs i = Done x.
Proof.
  intros Hi. destruct (lookup_lt_is_Some_2 xs (Z.to_nat i)) as [x Hx]; [lia|].
  exists x. apply index_Done. split; [lia | done].
Qed.

Lemma index_bounds {A} (xs : list A) (i : Z) (x : A) :
  index xs i = Done x → 0 ≤ i < Z.of_nat (length xs).
Proof.
  intros [Hi Hx]%index_Done. apply lookup_lt_Some in Hx. lia.
Qed.

Lemma setNode_length t k f : length (nodes (setNode t k f)) = length (nodes t).
Proof. unfold setNode. simpl. apply length_alter. Qed.

Lemma setNode_nextNode t k f : nextNode (setNode t k f) = nextNode t.
Proof. done. Qed.

Lemma setNode_lookup_ne t k f (i : nat) :
  Z.to_nat k ≠ i → nodes (setNode t k f) !! i = nodes t !! i.
Proof. intros Hne. unfold setNode. simpl. by apply list_lookup_alter_ne. Qed.

Lemma setNode_lookup t k f :
  nodes (setNode t k f) !! Z.to_nat k = f <$> nodes t !! Z.to_nat k.
Proof. unfold setNode. simpl. apply list_lookup_alter_eq. Qed.

(** ** One call of [buildHuffmanNode], unfolded *)

Lemma build_unfold depth t codes level l r :
  buildHuffmanNode (S depth) t codes level l r =
  fri ← findFirstRight (code codes) (testBit level) l (Z.to_nat (r - l)) (r - l);
  if (fri - l =? 0) || (r - fri =? 0) then
    if Z.of_nat (length (code codes)) <? 2 then
      Done (t, (0, Some "empty Huffman tree"%string))
    else if level =? 31 then
      Done (t, (0, Some "equal symbols in Huffman tree"%string))
    else if fri - l =? 0 then
      buildHuffmanNode depth t codes (uint32 (level + 1)) fri r
    else buildHuffmanNode depth t codes (uint32 (level + 1)) l fri
  else
    _ ← index (nodes t) (nextNode t);
    let t0 := mkTree (nodes t) (nextNode t + 1) in
    '(tl, err) ←
      buildSide (buildHuffmanNode depth t0 codes (uint32 (level + 1)) l fri)
        t0 (nextNode t) (fri - l =? 1) (value codes) l setLeft setLeftValue;
    match err with
    | Some _ => Done (tl, (uint16 (nextNode t), err))
    | None =>
        '(tr, err) ←
          buildSide (buildHuffmanNode depth tl codes (uint32 (level + 1)) fri r)
            tl (nextNode t) (r - fri =? 1) (value codes) fri setRight setRightValue;
        Done (tr, (uint16 (nextNode t), err))
    end.
Proof. reflexivity. Qed.

Lemma build_inv depth t codes level l r t' i err :
  buildHuffmanNode (S depth) t codes level l r = Done (t', (i, err)) →
  buildStep depth t codes level l r t' i err.
Proof.
  rewrite build_unfold. intros H.
  destruct (findFirstRight _ _ _ _ _) as [fri|] eqn:Hfri; [|discriminate].
  simpl in H.
  destruct (Z.eqb_spec (fri - l) 0) as [Hl|Hl];
    [|destruct (Z.eqb_spec (r - fri) 0) as [Hr|Hr]]; simpl in H.
  - destruct (Z.ltb_spec (Z.of_nat (length (code codes))) 2);
      [simplify_eq; by apply step_empty|].
    destruct (Z.eqb_spec level 31); [simplify_eq; by apply step_equal|].
    apply (step_skip _ _ _ _ _ _ _ _ _ fri fri r); [done|lia|done|lia|done].
  - destruct (Z.ltb_spec (Z.of_nat (length (code codes))) 2);
      [simplify_eq; by apply step_empty|].
    destruct (Z.eqb_spec level 31); [simplify_eq; by apply step_equal|].
    apply (step_skip _ _ _ _ _ _ _ _ _ fri l fri); [done|lia|done|lia|done].
  - destruct (index (nodes t) (nextNode t)) as [nd|] eqn:Hnd; [|discriminate].
    apply index_bounds in Hnd. simpl in H.
    match type of H with (mbind _ ?m) = _ => destruct m as [[tl el]|] eqn:Hleft end;
      [|discriminate].
    simpl in H. destruct el as [e|].
    + simplify_eq. by eapply step_left_failed.
    + match type of H with (mbind _ ?m) = _ => destruct m as [[tr er]|] eqn:Hright end;
        [|discriminate].
      simpl in H. simplify_eq. by eapply step_split.
Qed.

(** What one side adds to the count of nodes, given what a nested call adds. *)
Lemma buildSide_count sub t k single vs vi setI setV t' (n : Z) :
  buildSide sub t k single vs vi setI setV = Done (t', None) →
  (single = true → n = 1) →
  (∀ t1 i, sub = Done (t1, (i, None)) →
           2 ≤ n ∧ nextNode t1 = nextNode t + n - 1) →
  1 ≤ n ∧ nextNode t' = nextNode t + n - 1.
Proof.
  unfold buildSide. intros H Hone Hsub. destruct single.
  - destruct (index vs vi); simplify_eq/=. rewrite Hone by done. lia.
  - destruct sub as [[t1 [i e]]|]; simplify_eq/=.
    destruct (Hsub t1 i eq_refl). lia.
Qed.

(** A call that returns without error was given at least two entries and
    has used one node less than it was given entries. *)
Lemma build_count depth : ∀ t codes level l r t' i,
  buildHuffmanNode depth t codes level l r = Done (t', (i, None)) →
  2 ≤ r - l ∧ nextNode t' = nextNode t + (r - l) - 1.
Proof.
  induction depth as [|depth IH]; intros t codes level l r t' i H;
    [discriminate|].
  apply build_inv in H.
  destruct H as [| |fri0 l' r' ? ? ? Hlr Hrec|fri e|fri tl ??? Hk Hleft Hright];
    try discriminate.
  - apply IH in Hrec. lia.
  - eapply (buildSide_count _ _ _ _ _ _ _ _ _ (fri - l)) in Hleft as [? Hnl];
      [|intros ?%Z.eqb_eq; lia|intros ?? Hs; apply IH in Hs; simpl in *; lia].
    eapply (buildSide_count _ _ _ _ _ _ _ _ _ (r - fri)) in Hright as [? Hnr];
      [|intros ?%Z.eqb_eq; lia|intros ?? Hs; apply IH in Hs; simpl in *; lia].
    simpl in *. lia.
Qed.

(** ** What every call of [buildHuffmanNode] leaves of the tree *)

Lemma buildSide_frame sub t k single vs vi setI setV t' err :
  buildSide sub t k single vs vi setI setV = Done (t', err) →
  k < nextNode t →
  (∀ t1 i e, sub = Done (t1, (i, e)) →
     length (nodes t1) = length (nodes t) ∧ nextNode t ≤ nextNode t1 ∧
     ∀ j : nat, Z.of_nat j < nextNode t → nodes t1 !! j = nodes t !! j) →
  length (nodes t') = length (nodes t) ∧ nextNode t ≤ nextNode t' ∧
  ∀ j : nat, Z.of_nat j < k → nodes t' !! j = nodes t !! j.
Proof.
  unfold buildSide. intros H Hk Hsub. destruct single.
  - destruct (index vs vi); simplify_eq/=.
    rewrite !length_alter. split_and!; [done|lia|].
    intros j Hj. by rewrite !list_lookup_alter_ne by lia.
  - destruct sub as [[t1 [i e]]|]; simplify_eq/=.
    destruct (Hsub t1 i err eq_refl) as (Hlen & Hnext & Hfr).
    rewrite length_alter. split_and!; [done|lia|].
    intros j Hj. rewrite list_lookup_alter_ne by lia. apply Hfr. lia.
Qed.

(** A call keeps the length of the node slice, never lowers [nextNode], and
    writes no node below the [nextNode] it was entered with. *)
Lemma build_frame depth : ∀ t codes level l r t' i err,
  buildHuffmanNode depth t codes level l r = Done (t', (i, err)) →
  length (nodes t') = length (nodes t) ∧
  nextNode t ≤ nextNode t' ∧
  ∀ j : nat, Z.of_nat j < nextNode t → nodes t' !! j = nodes t !! j.
Proof.
  induction depth as [|depth IH]; intros t codes level l r t' i err H;
    [discriminate|].
  apply build_inv in H.
  destruct H as [| |fri0 l' r' ? ? ? Hlr Hrec|fri e ??? Hk Hleft|fri tl ??? Hk Hleft Hright];
    simplify_eq; eauto with lia.
  - apply buildSide_frame in Hleft as (Hlen & Hnext & Hfr);
      simpl in *; [|lia|by intros ??? ?%IH].
    split_and!; [done|lia|done].
  - apply buildSide_frame in Hleft as (Hlen & Hnext & Hfr);
      simpl in *; [|lia|by intros ??? ?%IH].
    apply buildSide_frame in Hright as (Hlen' & Hnext' & Hfr');
      simpl in *; [|lia|by intros ??? ?%IH].
    split_and!; [congruence|lia|].
    intros j Hj. rewrite Hfr' by lia. auto.
Qed.

(** ** The slices [newHuffmanTree] works on *)

Lemma assignLoop_length pairs : length (assignLoop pairs).1 = length pairs.
Proof.
  induction pairs as [|p ps IH]; [done|]. simpl.
  destruct (assignLoop ps) as [es [c len]]. simpl in *. by rewrite IH.
Qed.

Lemma rows_of_rows es : rows (of_rows es) = es.
Proof.
  unfold rows, of_rows. simpl.
  induction es as [|[[c len] v] es IH]; [done|].
  rewrite !fmap_cons. simpl. f_equal. exact IH.
Qed.

Lemma sortPairs_perm ps : sortPairs ps ≡ₚ ps.
Proof. apply merge_sort_Permutation. Qed.

Lemma sorted_codes_length S lengths :
  length (code (sort_Sort S (assignCodes (sortPairs (makePairs lengths)))))
  = length lengths.
Proof.
  unfold sort_Sort, assignCodes. simpl. rewrite length_fmap.
  rewrite (Permutation_length (sort_perm S _)), rows_of_rows.
  rewrite assignLoop_length, (Permutation_length (sortPairs_perm _)).
  unfold makePairs. apply length_imap.
Qed.

(** [newHuffmanTree] returns a tree exactly when the outermost call of
    [buildHuffmanNode] returns. *)
Lemma newHuffmanTree_Done S depth lengths t err :
  newHuffmanTree S depth lengths = Done (t, err) ↔
  2 ≤ Z.of_nat (length lengths) ∧
  ∃ i, buildHuffmanNode depth
         (mkTree (replicate (length lengths) zeroNode) 0)
         (sort_Sort S (assignCodes (sortPairs (makePairs lengths))))
         0 0 (Z.of_nat (length lengths)) = Done (t, (i, err)).
Proof.
  unfold newHuffmanTree. rewrite sorted_codes_length.
  destruct (Z.ltb_spec (Z.of_nat (length lengths)) 2).
  - split; [discriminate|lia].
  - destruct (buildHuffmanNode _ _ _ _ _ _) as [[t1 [i1 e1]]|]; simpl.
    + split; [intros; simplify_eq; eauto|]. intros [_ [i ?]]. by simplify_eq.
    + split; [discriminate|]. intros [_ [i ?]]. discriminate.
Qed.

(** ** The node slice and the count of nodes (claim C5) *)

(** C5, as the specification states it, fails: for the lengths [1; 1]
    construction succeeds with two leaves, and the node slice was made with
    two entries, not with one. *)
Lemma node_slice_not_exact :
  ∃ t, newHuffmanTree mergeSorter 32 [1; 1] = Done (t, None) ∧
       nextNode t = 2 - 1 ∧
       Z.of_nat (length (nodes t)) ≠ 2 - 1.
Proof. eexists. split; [vm_compute; reflexivity|]. split; [done|]. simpl. lia. Qed.

(** A successful construction has used one node less than there are
    lengths, of as many nodes as there are lengths. *)
Lemma nodes_count S depth lengths t :
  newHuffmanTree S depth lengths = Done (t, None) →
  nextNode t = Z.of_nat (length lengths) - 1 ∧
  length (nodes t) = length lengths.
Proof.
  intros [Hlen [i Hb]]%newHuffmanTree_Done.
  pose proof (build_count _ _ _ _ _ _ _ _ Hb) as [_ Hn].
  apply build_frame in Hb as (Hl & _ & _).
  simpl in *. rewrite length_replicate in Hl. split; [lia|done].
Qed.

(** C5, amended: when [newHuffmanTree] succeeds on [n] lengths, it has
    filled exactly [n - 1] nodes, the nodes [0 .. n - 2], of a node slice
    that was made with [n] entries (one for every length) before the
    recursion, and that no call resized. *)
Theorem nodes_used_and_allocated S depth lengths t :
  newHuffmanTree S depth lengths = Done (t, None) →
  nextNode t = Z.of_nat (length lengths) - 1 ∧
  length (nodes t) = length lengths.
Proof. apply nodes_count. Qed.

Lemma nodes_used_and_allocated_witness :
  ∃ t, newHuffmanTree mergeSorter 32 [2; 2; 1] = Done (t, None) ∧
       nextNode t = 2 ∧ length (nodes t) = 3%nat.
Proof.
  eexists. split; [vm_compute; reflexivity|].
  apply (nodes_used_and_allocated mergeSorter 32 [2; 2; 1]).
  vm_compute. reflexivity.
Defined.

(** ** Runs on malformed length arrays (claims C3, C6, C7, C8) *)

(** C3 at the lengths [3; 3; 3; 3; 3; 3].  The sorted codes are 000, 001,
    010, 011, 100, 101 (three bits each); the entries 4 and 5 agree at bit
    position 1.  The call for them at bit position 1 does not behave as the
    call at bit position 2 over the same entries, which would return node 4
    with two leaves: with no code of the range having the bit set,
    [firstRightIndex] stays [r - l = 2], the index of no entry of [4, 6),
    and the call takes a node and goes on over [4, 2) until it has used up
    the node slice.  [newHuffmanTree] panics. *)
Theorem skipped_level_off_origin :
  let codes := sort_Sort mergeSorter
                 (assignCodes (sortPairs (makePairs [3; 3; 3; 3; 3; 3]))) in
  let t := mkTree (replicate 6 zeroNode) 4 in
  index (code codes) 4 = Done (2 ^ 31) ∧
  index (code codes) 5 = Done (2 ^ 31 + 2 ^ 29) ∧
  Z.land (2 ^ 31) (testBit 1) = 0 ∧
  Z.land (2 ^ 31 + 2 ^ 29) (testBit 1) = 0 ∧
  findFirstRight (code codes) (testBit 1) 4 (Z.to_nat (6 - 4)) (6 - 4) = Done 2 ∧
  (∃ t', buildHuffmanNode 31 t codes 2 4 6 = Done (t', (4, None))) ∧
  buildHuffmanNode 32 t codes 1 4 6 = Fault (Panic "index out of range") ∧
  newHuffmanTree mergeSorter 32 [3; 3; 3; 3; 3; 3]
    = Fault (Panic "index out of range").
Proof.
  vm_compute. split_and!; try reflexivity. eexists. reflexivity.
Qed.

(** C6 at the lengths [1; 1; 1; 32]: symbols 0 and 2 both receive the code
    [1] of length 1, the entries 1 and 2 of the sorted codes.  They are
    still together when bit position 31 is reached, the call there splits
    entry 0 from them, and the call for the range [1, 3) at bit position 32
    makes a leaf of each: [newHuffmanTree] returns a tree and no error. *)
Theorem equal_codes_accepted :
  rows (sort_Sort mergeSorter (assignCodes (sortPairs (makePairs [1; 1; 1; 32]))))
    = [(0, 32, 3); (1, 1, 0); (1, 1, 2); (2 ^ 31 + 1, 1, 1)] ∧
  ∃ t, newHuffmanTree mergeSorter 33 [1; 1; 1; 32] = Done (t, None) ∧
       nodes t !! 2%nat = Some (mkNode invalidNodeValue invalidNodeValue 0 2).
Proof.
  split; [vm_compute; reflexivity|].
  eexists. split; vm_compute; reflexivity.
Qed.

(** C7 at the lengths [1; 1; 1; 32]: 32 nested calls are not enough, the
    run needs a 33rd, the call at bit position 32. *)
Theorem recursion_deeper_than_32 :
  newHuffmanTree mergeSorter 32 [1; 1; 1; 32] = Fault TooDeep ∧
  ∃ t, newHuffmanTree mergeSorter 33 [1; 1; 1; 32] = Done (t, None).
Proof. split; [vm_compute; reflexivity|]. eexists. vm_compute. reflexivity. Qed.


(** ** Reading bits *)

Lemma Decode_loop_unfold steps t br i :
  Decode_loop (S steps) t br i =
  nd ← index (nodes t) i;
  '(bit, br) ← Decode_bit br;
  if (if bit =? 1 then node_left nd else node_right nd) =? invalidNodeValue
  then Done (if bit =? 1 then leftValue nd else rightValue nd, br)
  else Decode_loop steps t br (if bit =? 1 then node_left nd else node_right nd).
Proof. reflexivity. Qed.

Lemma low_bit_of_shift n s :
  0 ≤ s → Z.land (uint16 (Z.shiftr n s)) 1 = Z.b2z (Z.testbit n s).
Proof.
  intros Hs. unfold uint16.
  change 1 with (Z.ones 1). rewrite Z.land_ones by lia.
  change (2 ^ 1) with 2.
  rewrite Z.mod_mod_divide by (by exists (2 ^ 15)). rewrite <- Z.bit0_mod, Z.shiftr_spec by lia.
  by rewrite Z.add_0_l.
Qed.

Lemma buffered_succ n bits :
  0 ≤ bits →
  buffered n (bits + 1) = Z.testbit n bits :: buffered n bits.
Proof.
  intros Hb. unfold buffered.
  replace (Z.to_nat (bits + 1)) with (S (Z.to_nat bits)) by lia.
  rewrite seq_S, reverse_app. simpl. f_equal. f_equal. lia.
Qed.

Lemma available_pending br :
  wf_reader br → available br = length (pending br).
Proof.
  intros _. unfold available, pending, buffered.
  by rewrite length_app, length_fmap, length_reverse, length_seq.
Qed.

(** One iteration takes the first pending bit, or fails when none is left. *)
Lemma Decode_bit_spec br :
  wf_reader br →
  match pending br with
  | [] => Decode_bit br = Fault (StreamError "unexpected EOF")
  | b :: bs => ∃ br', Decode_bit br = Done (Z.b2z b, br') ∧
                      pending br' = bs ∧ wf_reader br'
  end.
Proof.
  destruct br as [n bits rest].
  unfold wf_reader, Decode_bit, pending. simpl. intros Hwf.
  destruct (Z.ltb_spec 0 bits) as [Hpos|Hzero].
  - assert (buffered n bits = Z.testbit n (bits - 1) :: buffered n (bits - 1))
      as -> by (rewrite <- buffered_succ by lia; f_equal; lia).
    rewrite <- app_comm_cons. exists (mkReader n (bits - 1) rest).
    split_and!; [|reflexivity|simpl; lia..].
    f_equal. f_equal.
    change 63 with (Z.ones 6). rewrite Z.land_ones by lia.
    rewrite Z.mod_small by lia. apply low_bit_of_shift. lia.
  - replace bits with 0 by lia. simpl.
    destruct rest as [|b rest]; [done|]. simpl.
    exists (mkReader n 0 rest). split_and!; [|reflexivity|simpl; lia..].
    by destruct b.
Qed.

Lemma feed_pending bs : pending (feed bs) = bs.
Proof. done. Qed.

Lemma feed_wf bs : wf_reader (feed bs).
Proof. unfold wf_reader, feed. simpl. lia. Qed.

Lemma b2z_eqb_1 b : (Z.b2z b =? 1) = b.
Proof. by destruct b. Qed.

(** ** Truncated streams (claim C9) *)




(** ** The code-assignment loop on sorted pairs *)

Global Instance pairLe_total : Total pairLe.
Proof.
  intros p q. unfold pairLe, pairLess.
  repeat (case_match; try (by auto)); lia.
Qed.

Global Instance pairLe_trans : Transitive pairLe.
Proof.
  intros p q r. unfold pairLe, pairLess.
  repeat (case_match; try (by auto)); try lia; discriminate.
Qed.

Lemma pairLe_length p q : pairLe p q → pair_length p ≤ pair_length q.
Proof.
  unfold pairLe, pairLess. repeat (case_match; try (by auto)); try lia;
    discriminate.
Qed.

Lemma pairLe_value p q :
  pairLe p q → pair_length p = pair_length q → pair_value p ≤ pair_value q.
Proof.
  unfold pairLe, pairLess. repeat (case_match; try (by auto)); try lia;
    discriminate.
Qed.

Lemma sortPairs_sorted ps : StronglySorted pairLe (sortPairs ps).
Proof. apply Sorted_StronglySorted; [apply _|]. apply Sorted_merge_sort, _. Qed.

(** Pairs that [pairLess] does not order are equal, so the sorted slice is
    the same for every sorting algorithm. *)
Lemma sortPairs_unique ps qs :
  Sorted pairLe qs → qs ≡ₚ ps → qs = sortPairs ps.
Proof.
  intros Hs Hp. apply (Sorted_unique_strong pairLe); [|done| |].
  - intros [v1 l1] [v2 l2] _ _. unfold pairLe, pairLess. simpl.
    repeat (case_match; try (by auto)); try discriminate; intros; f_equal; lia.
  - apply Sorted_merge_sort, _.
  - by rewrite sortPairs_perm.
Qed.

Lemma kraft_pos lengths : 0 ≤ kraft lengths.
Proof.
  induction lengths as [|len ls IH]; simpl; [lia|].
  pose proof (Z.pow_nonneg 2 (32 - len)). lia.
Qed.

Lemma kraft_perm l1 l2 : l1 ≡ₚ l2 → kraft l1 = kraft l2.
Proof. induction 1; simpl; lia. Qed.

Lemma shl32_one len :
  0 ≤ len ≤ 32 → shl32 1 (uint8 (32 - len)) = uint32 (2 ^ (32 - len)).
Proof.
  intros Hlen. unfold shl32, uint8, uint32.
  rewrite (Z.mod_small (32 - len)) by lia.
  destruct (Z.ltb_spec (32 - len) 32).
  - by rewrite Z.shiftl_1_l.
  - by replace (32 - len) with 32 by lia.
Qed.

Lemma uint32_add a b : uint32 (uint32 a + uint32 b) = uint32 (a + b).
Proof. unfold uint32. by rewrite <- Zplus_mod. Qed.

Lemma assignLoop_sorted ps :
  pairsInRange ps → StronglySorted pairLe ps →
  assignLoop ps =
    (codesOf ps, (uint32 (weight ps), default 32 (pair_length <$> head ps))).
Proof.
  intros Hr Hs. induction ps as [|p ps IH]; [done|].
  apply Forall_cons in Hr as [Hp Hr]. apply StronglySorted_cons in Hs as [Hle Hs].
  simpl. rewrite IH by done. clear IH.
  assert ((if pair_length p <? default 32 (pair_length <$> head ps)
           then pair_length p else default 32 (pair_length <$> head ps))
          = pair_length p) as ->.
  { destruct (Z.ltb_spec (pair_length p) (default 32 (pair_length <$> head ps)));
      [done|].
    destruct ps as [|q ps]; simpl in *; [lia|].
    apply Forall_cons in Hle as [?%pairLe_length _]. lia. }
  rewrite shl32_one by lia.
  replace (uint32 (weight ps) + uint32 (2 ^ (32 - pair_length p)))
    with (uint32 (2 ^ (32 - pair_length p)) + uint32 (weight ps)) by lia.
  by rewrite uint32_add.
Qed.

Lemma makePairs_lengths lengths : pair_length <$> makePairs lengths = lengths.
Proof.
  unfold makePairs. rewrite fmap_imap. simpl.
  induction lengths as [|len ls IH] using rev_ind; [done|].
  rewrite imap_app. simpl. by rewrite IH.
Qed.

Lemma sortPairs_weight lengths :
  weight (sortPairs (makePairs lengths)) = kraft lengths.
Proof.
  unfold weight. rewrite <- (makePairs_lengths lengths) at 2.
  apply kraft_perm, fmap_Permutation, sortPairs_perm.
Qed.

Lemma sortPairs_inRange lengths :
  lengthsInRange lengths → pairsInRange (sortPairs (makePairs lengths)).
Proof.
  intros Hr. unfold pairsInRange. rewrite sortPairs_perm.
  unfold lengthsInRange in Hr. rewrite <- (makePairs_lengths lengths) in Hr.
  by apply Forall_fmap in Hr.
Qed.

Lemma assigned_sorted lengths :
  lengthsInRange lengths →
  assigned lengths = codesOf (sortPairs (makePairs lengths)).
Proof.
  intros Hr. unfold assigned.
  by rewrite assignLoop_sorted by auto using sortPairs_inRange, sortPairs_sorted.
Qed.

(** ** Symbols of equal code length (claim C4) *)

Lemma weight_cons p ps :
  weight (p :: ps) = 2 ^ (32 - pair_length p) + weight ps.
Proof. done. Qed.

Lemma weight_nonneg ps : 0 ≤ weight ps.
Proof. apply kraft_pos. Qed.

Lemma step_pos len : 1 ≤ len ≤ 32 → 1 ≤ 2 ^ (32 - len) ≤ 2 ^ 31.
Proof.
  intros Hlen. split.
  - pose proof (Z.pow_pos_nonneg 2 (32 - len)). lia.
  - apply Z.pow_le_mono_r; lia.
Qed.

(** An entry found in [codesOf ps] belongs to a pair of [ps] and, when the
    steps of [ps] do not wrap, its code is below the sum of the steps. *)
Lemma lookupSymbol_codesOf s ps c len :
  pairsInRange ps → weight ps ≤ 2 ^ 32 →
  lookupSymbol s (codesOf ps) = Some (c, len) →
  0 ≤ c < weight ps ∧ mkPair s len ∈ ps.
Proof.
  intros Hr Hw. induction ps as [|[v l] ps IH]; [done|].
  apply Forall_cons in Hr as [Hp Hr]. rewrite weight_cons in *. simpl in *.
  pose proof (step_pos l Hp). pose proof (weight_nonneg ps).
  unfold row_value, row_code, row_len. simpl.
  destruct (Z.eqb_spec v s) as [->|Hne]; intros Hfound.
  - simplify_eq. unfold uint32. rewrite Z.mod_small by lia.
    split; [lia|by left].
  - destruct IH as [? ?]; [done|lia|done|]. split; [lia|by right].
Qed.

(** C4, as the specification states it, fails: for the lengths [1; 1] both
    symbols have code length 1, and the lower symbol 0 has the code value
    [2 ^ 31], the higher symbol 1 the code value 0. *)
Lemma lower_symbol_not_smaller_code :
  symbolCode [1; 1] 0 = Some (2 ^ 31, 1) ∧
  symbolCode [1; 1] 1 = Some (0, 1) ∧
  ¬ 2 ^ 31 < 0.
Proof. split_and!; [vm_compute; reflexivity..|lia]. Qed.

(** C4, amended: when every length is in 1..32 and the Kraft sum is at most
    1 (the code values do not wrap), of two symbols with equal code length
    the lower-valued symbol has the larger left-justified 32-bit code
    value. *)
Theorem tie_break_larger_code lengths s1 s2 c1 c2 len :
  lengthsInRange lengths → kraft lengths ≤ 2 ^ 32 →
  s1 < s2 →
  symbolCode lengths s1 = Some (c1, len) →
  symbolCode lengths s2 = Some (c2, len) →
  c2 < c1.
Proof.
  intros Hr Hk Hs. unfold symbolCode. rewrite assigned_sorted by done.
  rewrite <- sortPairs_weight in Hk.
  pose proof (sortPairs_inRange _ Hr) as Hpr.
  pose proof (sortPairs_sorted (makePairs lengths)) as Hsorted.
  revert Hk Hpr Hsorted. generalize (sortPairs (makePairs lengths)) as ps.
  clear Hr. intros ps Hw Hr Hsorted H1 H2.
  induction ps as [|[v l] ps IH]; [done|].
  apply Forall_cons in Hr as [Hp Hr].
  apply StronglySorted_cons in Hsorted as [Hle Hsorted].
  rewrite weight_cons in Hw. simpl in *.
  pose proof (step_pos l Hp). pose proof (weight_nonneg ps).
  unfold row_value, row_code, row_len in *. simpl in *.
  destruct (Z.eqb_spec v s1) as [->|Hne1].
  - destruct (Z.eqb_spec s1 s2); [lia|]. simplify_eq.
    apply lookupSymbol_codesOf in H2 as [? _]; [|done|lia].
    unfold uint32. rewrite Z.mod_small by lia. lia.
  - destruct (Z.eqb_spec v s2) as [->|Hne2].
    + simplify_eq. apply lookupSymbol_codesOf in H1 as [_ Hin]; [|done|lia].
      rewrite Forall_forall in Hle. apply Hle in Hin.
      apply pairLe_value in Hin; simpl in *; lia.
    + apply IH; [lia|done..].
Qed.

Lemma tie_break_larger_code_witness :
  symbolCode [2; 2; 1] 0 = Some (2 ^ 30, 2) ∧
  symbolCode [2; 2; 1] 1 = Some (0, 2) ∧
  0 < 2 ^ 30.
Proof.
  split_and!; [vm_compute; reflexivity..|].
  apply (tie_break_larger_code [2; 2; 1] 0 1 (2 ^ 30) 0 2);
    [repeat constructor; lia|vm_compute; discriminate|lia
    |vm_compute; reflexivity..].
Defined.

(** ** Complete codes: the sorted entries tile the code space *)

Lemma span_app es1 es2 : span (es1 ++ es2) = span es1 + span es2.
Proof. induction es1 as [|e es1 IH]; simpl; lia. Qed.

Lemma step_range e : 1 ≤ row_len e ≤ 32 → 1 ≤ step e ≤ 2 ^ 31.
Proof. apply step_pos. Qed.

Lemma tiles_app base es1 es2 :
  tiles base (es1 ++ es2) ↔ tiles base es1 ∧ tiles (base + span es1) es2.
Proof.
  revert base. induction es1 as [|e es1 IH]; intros base; simpl.
  - rewrite Z.add_0_r. tauto.
  - rewrite IH, Z.add_assoc. tauto.
Qed.

Lemma tiles_span_pos base es : tiles base es → es ≠ [] → 1 ≤ span es.
Proof.
  destruct es as [|e es]; [done|]. simpl. intros (_ & Hlen & _ & Hes) _.
  pose proof (step_range e Hlen).
  assert (0 ≤ span es); [|lia].
  clear. induction es as [|e' es IH]; simpl; [lia|].
  pose proof (Z.pow_nonneg 2 (32 - row_len e')). unfold step. lia.
Qed.

Lemma span_nonneg es : 0 ≤ span es.
Proof.
  induction es as [|e es IH]; simpl; [lia|].
  pose proof (Z.pow_nonneg 2 (32 - row_len e)). unfold step. lia.
Qed.

(** Where the entries of a tiling lie. *)
Lemma tiles_elem base es e :
  tiles base es → e ∈ es →
  1 ≤ row_len e ≤ 32 ∧ base ≤ row_code e ∧ row_code e + step e ≤ base + span es.
Proof.
  revert base. induction es as [|e' es IH]; intros base Ht Hin; [by inv Hin|].
  simpl in *. destruct Ht as (Hc & Hlen & _ & Ht).
  pose proof (step_range e' Hlen). pose proof (span_nonneg es).
  inv Hin; [lia|].
  destruct (IH _ Ht) as (? & ? & ?); [done|]. lia.
Qed.

Lemma pow2_divide a b : 0 ≤ a ≤ b → (2 ^ a | 2 ^ b).
Proof.
  intros Hab. exists (2 ^ (b - a)). rewrite <- Z.pow_add_r by lia. f_equal. lia.
Qed.

(** The codes of a complete code: the loop's entries, read from the last to
    the first, tile the code space from 0 on. *)
Lemma codesOf_tiles ps : ∀ pre,
  StronglySorted pairLe (pre ++ ps) → pairsInRange (pre ++ ps) →
  weight pre + weight ps = 2 ^ 32 →
  tiles 0 (reverse (codesOf ps)) ∧ span (reverse (codesOf ps)) = weight ps.
Proof.
  induction ps as [|p ps IH]; intros pre Hs Hr Hw; [done|].
  destruct (IH (pre ++ [p])) as [Ht Hsp].
  { by rewrite <- app_assoc. }
  { by rewrite <- app_assoc. }
  { unfold weight in *. rewrite fmap_app. rewrite fmap_cons in Hw. simpl in *.
    assert (∀ l1 l2, kraft (l1 ++ l2) = kraft l1 + kraft l2) as ->.
    { intros l1 l2. induction l1; simpl; lia. }
    simpl. lia. }
  assert (1 ≤ pair_length p ≤ 32) as Hp.
  { unfold pairsInRange in Hr. rewrite Forall_app, Forall_cons in Hr. tauto. }
  pose proof (step_pos _ Hp). pose proof (weight_nonneg pre).
  pose proof (weight_nonneg ps). rewrite weight_cons in Hw.
  simpl. rewrite reverse_cons, tiles_app, span_app, Hsp. simpl.
  unfold step, row_code, row_len. simpl.
  unfold uint32. rewrite Z.mod_small by lia.
  split; [|rewrite weight_cons; lia]. split_and!; [done|lia|lia|lia| |done].
  rewrite Z.add_0_l.
  replace (weight ps) with (2 ^ 32 - weight pre - 2 ^ (32 - pair_length p)) by lia.
  apply Z.divide_sub_r; [apply Z.divide_sub_r|]; [apply pow2_divide; lia| |done].
  assert (∀ q, q ∈ pre → pairLe q p) as Hle.
  { intros q Hq. eapply (StronglySorted_app_1_elem_of _ _ _ _ _ Hs); [done|by left]. }
  clear -Hle Hr Hp. induction pre as [|q pre IH]; [by exists 0|].
  rewrite weight_cons. apply Z.divide_add_r.
  - apply pow2_divide.
    assert (pair_length q ≤ pair_length p).
    { apply pairLe_length, Hle. by left. }
    assert (1 ≤ pair_length q ≤ 32).
    { unfold pairsInRange in Hr. simpl in Hr. apply Forall_cons in Hr. tauto. }
    lia.
  - apply IH.
    + unfold pairsInRange in *. simpl in Hr. by apply Forall_cons in Hr as [_ ?].
    + intros q' Hq'. apply Hle. by right.
Qed.

(** A tiling that reaches [H] beyond a multiple of [H] has a prefix that
    ends exactly there: no entry straddles the middle of a block. *)
Lemma tiles_prefix H base : 0 < H → (H | base) → ∀ es off,
  tiles (base + off) es → Forall (λ e, (step e | H)) es →
  0 ≤ off < H → H ≤ off + span es →
  ∃ es1 es2, es = es1 ++ es2 ∧ off + span es1 = H.
Proof.
  intros HH Hbase. induction es as [|e es IH]; intros off Ht Hdiv Hoff Hspan;
    simpl in *; [lia|].
  destruct Ht as (_ & Hlen & Hal & Ht). apply Forall_cons in Hdiv as [He Hdiv].
  pose proof (step_range e Hlen) as Hstep.
  assert (step e | H - off) as Hrem.
  { replace (H - off) with (H + base - (base + off)) by lia.
    apply Z.divide_sub_r; [|done]. apply Z.divide_add_r; [done|].
    by etrans. }
  apply Z.divide_pos_le in Hrem; [|lia].
  destruct (decide (off + step e = H)) as [Heq|Hne].
  - exists [e], es. simpl. split; [done|lia].
  - destruct (IH (off + step e)) as (es1 & es2 & -> & Hsp);
      [by rewrite Z.add_assoc|done|lia|lia|].
    exists (e :: es1), es2. simpl. split; [done|lia].
Qed.

(** In a block of at least two entries at bit position [p], every code is
    longer than [p] bits. *)
Lemma block_lengths p base es :
  tiles base es → span es = 2 ^ (32 - p) → (2 ≤ length es)%nat →
  Forall (λ e, p < row_len e ≤ 32) es.
Proof.
  intros Ht Hsp Hlen. apply Forall_forall. intros e Hin.
  pose proof (tiles_elem _ _ _ Ht Hin) as (Hl & _).
  apply list_elem_of_split in Hin as (l1 & l2 & ->).
  rewrite span_app in Hsp. simpl in Hsp.
  apply tiles_app in Ht as [Ht1 Ht2]. simpl in Ht2. destruct Ht2 as (_ & _ & _ & Ht2).
  assert (1 ≤ span l1 + span l2).
  { pose proof (span_nonneg l1). pose proof (span_nonneg l2).
    destruct l1 as [|e1 l1].
    - destruct l2 as [|e2 l2]; [simpl in Hlen; lia|].
      pose proof (tiles_span_pos _ _ Ht2 ltac:(done)). lia.
    - pose proof (tiles_span_pos _ _ Ht1 ltac:(done)). lia. }
  assert (step e < 2 ^ (32 - p)) as Hlt by lia. unfold step in Hlt.
  destruct (Z.le_gt_cases 0 (32 - p)) as [Hp|Hp].
  - apply Z.pow_lt_mono_r_iff in Hlt; lia.
  - rewrite (Z.pow_neg_r 2 (32 - p)) in Hlt by lia.
    pose proof (Z.pow_nonneg 2 (32 - row_len e)). lia.
Qed.

(** ** Bits of the codes of a block *)

Lemma land_pow2 c k :
  0 ≤ k → Z.land c (2 ^ k) = if Z.testbit c k then 2 ^ k else 0.
Proof.
  intros Hk. apply Z.bits_inj'. intros n Hn.
  rewrite Z.land_spec, Z.pow2_bits_eqb by lia.
  destruct (Z.eqb_spec k n) as [->|Hne].
  - destruct (Z.testbit c n) eqn:E; simpl.
    + by rewrite Z.pow2_bits_true.
    + by rewrite Z.bits_0.
  - rewrite andb_false_r. destruct (Z.testbit c k).
    + by rewrite Z.pow2_bits_false.
    + by rewrite Z.bits_0.
Qed.

Lemma land_pow2_lower c m k :
  0 ≤ k → m * 2 ^ (k + 1) ≤ c < m * 2 ^ (k + 1) + 2 ^ k →
  Z.land c (2 ^ k) = 0 ∧ Z.testbit c k = false.
Proof.
  intros Hk Hc. assert (Z.testbit c k = false) as Hbit.
  { apply Z.testbit_false; [done|].
    rewrite Z.pow_add_r in Hc by lia. change (2 ^ 1) with 2 in Hc.
    pose proof (Z.pow_pos_nonneg 2 k).
    replace (c / 2 ^ k) with (2 * m).
    - by rewrite Z.mul_comm, Z.mod_mul.
    - apply (Z.div_unique_pos c (2 ^ k) (2 * m) (c - 2 * m * 2 ^ k)); lia. }
  by rewrite land_pow2, Hbit.
Qed.

Lemma land_pow2_upper c m k :
  0 ≤ k → m * 2 ^ (k + 1) + 2 ^ k ≤ c < (m + 1) * 2 ^ (k + 1) →
  Z.land c (2 ^ k) ≠ 0 ∧ Z.testbit c k = true.
Proof.
  intros Hk Hc. pose proof (Z.pow_pos_nonneg 2 k).
  assert (Z.testbit c k = true) as Hbit.
  { apply Z.testbit_true; [done|].
    rewrite Z.pow_add_r in Hc by lia. change (2 ^ 1) with 2 in Hc.
    replace (c / 2 ^ k) with (1 + m * 2).
    - by rewrite Z.mod_add.
    - apply (Z.div_unique_pos c (2 ^ k) (1 + m * 2) (c - (1 + m * 2) * 2 ^ k)); lia. }
  rewrite land_pow2, Hbit by done. lia.
Qed.

Lemma testBit_pow p : 0 ≤ p ≤ 31 → testBit p = 2 ^ (31 - p).
Proof.
  intros Hp. unfold testBit, shl32, uint32.
  rewrite (Z.mod_small (31 - p)) by lia.
  destruct (Z.ltb_spec (31 - p) 32); [|lia].
  rewrite Z.shiftl_1_l. apply Z.mod_small. split.
  - apply Z.pow_nonneg. lia.
  - apply Z.pow_lt_mono_r; lia.
Qed.

(** The search loop stops at the first code with the bit set. *)
Lemma findFirstRight_found test dflt c post : ∀ mid pre steps,
  Forall (λ c', Z.land c' test = 0) mid → Z.land c test ≠ 0 →
  (length mid < steps)%nat →
  findFirstRight (pre ++ mid ++ c :: post) test (Z.of_nat (length pre)) steps dflt
  = Done (Z.of_nat (length pre + length mid)).
Proof.
  induction mid as [|c' mid IH]; intros pre steps Hmid Hc Hsteps;
    (destruct steps as [|steps]; [simpl in Hsteps; lia|]); simpl.
  - assert (index (pre ++ c :: post) (Z.of_nat (length pre)) = Done c) as ->.
    { apply index_Done. split; [lia|]. rewrite Nat2Z.id.
      by rewrite lookup_app_r, Nat.sub_diag by lia. }
    simpl. destruct (Z.eqb_spec (Z.land c test) 0); [done|].
    do 2 f_equal. lia.
  - assert (index (pre ++ c' :: mid ++ c :: post) (Z.of_nat (length pre)) = Done c')
      as ->.
    { apply index_Done. split; [lia|]. rewrite Nat2Z.id.
      by rewrite lookup_app_r, Nat.sub_diag by lia. }
    simpl. apply Forall_cons in Hmid as [-> Hmid]. simpl.
    specialize (IH (pre ++ [c']) steps Hmid Hc).
    rewrite <- app_assoc, length_app in IH. simpl in IH.
    replace (Z.of_nat (length pre) + 1) with (Z.of_nat (length pre + 1)) by lia.
    rewrite IH by (simpl in Hsteps; lia). do 2 f_equal. lia.
Qed.

(** ** The tree a node slice holds *)

Lemma inner_nonneg tr : 0 ≤ inner tr.
Proof. induction tr; simpl; lia. Qed.

Lemma repr_frame ns ns' tr : ∀ k,
  0 ≤ k → repr ns k tr →
  (∀ j : nat, k ≤ Z.of_nat j < k + inner tr → ns' !! j = ns !! j) →
  repr ns' k tr.
Proof.
  induction tr as [v|a IHa b IHb]; intros k Hk Hr Hfr; [done|].
  simpl in *. destruct Hr as (nd & Hnd & Ha & Hb & Hra & Hrb).
  pose proof (inner_nonneg a). pose proof (inner_nonneg b).
  exists nd. split_and!; [|done|done| |].
  - rewrite Hfr by lia. done.
  - apply IHa; [lia|done|]. intros j Hj. apply Hfr. lia.
  - apply IHb; [lia|done|]. intros j Hj. apply Hfr. lia.
Qed.

(** [Decode], started on a node that holds a tree, follows [walk]. *)
Lemma Decode_loop_walk t tr : ∀ k bs v rest br steps,
  0 ≤ k → k + inner tr ≤ 65535 → 1 ≤ inner tr →
  repr (nodes t) k tr →
  walk tr bs = Some (v, rest) →
  wf_reader br → pending br = bs → (length bs < steps)%nat →
  ∃ br', Decode_loop steps t br k = Done (v, br') ∧
         pending br' = rest ∧ wf_reader br'.
Proof.
  induction tr as [w|a IHa b IHb];
    intros k bs v rest br steps Hk Hmax Hin Hr Hw Hwf Hp Hsteps;
    [simpl in Hin; lia|].
  destruct bs as [|x bs]; [done|]. simpl in Hw, Hr, Hmax, Hsteps.
  destruct Hr as (nd & Hnd & Ha & Hb & Hra & Hrb).
  pose proof (inner_nonneg a). pose proof (inner_nonneg b).
  destruct steps as [|steps]; [lia|]. rewrite Decode_loop_unfold.
  assert (index (nodes t) k = Done nd) as -> by (by apply index_Done).
  simpl. pose proof (Decode_bit_spec br Hwf) as Hbit. rewrite Hp in Hbit.
  destruct Hbit as (br1 & -> & Hp1 & Hwf1). simpl. rewrite b2z_eqb_1.
  assert (∀ c i val pos,
    slot c i val pos → repr (nodes t) pos c →
    k < pos → pos + inner c ≤ 65535 →
    (∀ bs v rest br steps, 0 ≤ pos → pos + inner c ≤ 65535 → 1 ≤ inner c →
       repr (nodes t) pos c → walk c bs = Some (v, rest) →
       wf_reader br → pending br = bs → (length bs < steps)%nat →
       ∃ br', Decode_loop steps t br pos = Done (v, br') ∧
              pending br' = rest ∧ wf_reader br') →
    walk c bs = Some (v, rest) →
    ∃ br', (if i =? invalidNodeValue then Done (val, br1)
            else Decode_loop steps t br1 i) = Done (v, br') ∧
           pending br' = rest ∧ wf_reader br') as Hside.
  { intros c i val pos Hs Hrc Hpos Hmaxc IH Hwc. destruct c as [w|c1 c2].
    - destruct Hs as [-> ->]. simpl in Hwc. simplify_eq.
      exists br1. by rewrite Z.eqb_refl.
    - pose proof (inner_nonneg c1). pose proof (inner_nonneg c2).
      simpl in Hmaxc, Hs. subst i. unfold uint16. rewrite Z.mod_small by lia.
      destruct (Z.eqb_spec pos invalidNodeValue) as [Heq|_];
        [unfold invalidNodeValue in Heq; lia|].
      apply (IH bs); [lia|done|simpl; lia|done|done|done|done|lia]. }
  destruct x.
  - apply (Hside a _ _ (k + 1)); [done|done|lia|lia| |done].
    intros. by eapply IHa.
  - apply (Hside b _ _ (k + 1 + inner a)); [done|done|lia|lia| |done].
    intros. by eapply IHb.
Qed.

Lemma stream_cons p e :
  p < row_len e →
  stream p e = negb (Z.testbit (row_code e) (31 - p)) :: stream (p + 1) e.
Proof.
  intros Hp. unfold stream. rewrite seqZ_cons by lia. simpl.
  do 3 f_equal; lia.
Qed.

Lemma stream_nil p e : row_len e ≤ p → stream p e = [].
Proof. intros Hp. unfold stream. by rewrite seqZ_nil by lia. Qed.

(** ** [buildHuffmanNode] on a block of a complete code *)

Lemma value_of_rows_index pre e post :
  index (value (of_rows (pre ++ e :: post))) (Z.of_nat (length pre))
  = Done (row_value e).
Proof.
  apply index_Done. split; [lia|]. rewrite Nat2Z.id. simpl.
  rewrite fmap_app, fmap_cons.
  by rewrite lookup_app_r, length_fmap, Nat.sub_diag by (rewrite length_fmap; lia).
Qed.

(** One side of a split of a block: half a block, of one entry or more. *)
Lemma side_block depth side p base es pre post t0 k nd0 l r single :
  blockSpec depth →
  tiles base es → span es = 2 ^ (32 - (p + 1)) →
  (2 ^ (32 - (p + 1)) | base) → 0 ≤ p ≤ 31 →
  es ≠ [] → 32 - (p + 1) ≤ Z.of_nat depth →
  0 ≤ k < nextNode t0 →
  nextNode t0 + Z.of_nat (length es) - 1 ≤ Z.of_nat (length (nodes t0)) →
  nodes t0 !! Z.to_nat k = Some nd0 →
  l = Z.of_nat (length pre) → r = Z.of_nat (length pre + length es) →
  single = (r - l =? 1) →
  ∃ t' a nd',
    buildSide
      (buildHuffmanNode depth t0 (of_rows (pre ++ es ++ post)) (uint32 (p + 1)) l r)
      t0 k single (value (of_rows (pre ++ es ++ post))) l
      (setIndex side) (setValue side) = Done (t', None) ∧
    nextNode t' = nextNode t0 + inner a ∧
    inner a = Z.of_nat (length es) - 1 ∧
    length (nodes t') = length (nodes t0) ∧
    nodes t' !! Z.to_nat k = Some nd' ∧
    sideHolds side a (nextNode t0) nd0 nd' ∧
    (∀ j : nat, Z.of_nat j < nextNode t0 → j ≠ Z.to_nat k →
                nodes t' !! j = nodes t0 !! j) ∧
    repr (nodes t') (nextNode t0) a ∧
    decodes (p + 1) es a.
Proof.
  intros IH Ht Hsp Hbase Hp Hne Hdepth Hk Hroom Hnd0 -> -> ->.
  unfold buildSide.
  destruct (Z.eqb_spec (Z.of_nat (length pre + length es) - Z.of_nat (length pre)) 1)
    as [Hone|Hmore].
  - (* a leaf *)
    destruct es as [|e [|e' es]]; [done| |simpl in Hone; lia].
    change (pre ++ [e] ++ post) with (pre ++ e :: post).
    rewrite value_of_rows_index. simpl.
    exists (setNode (setNode t0 k (setIndex side invalidNodeValue)) k
              (setValue side (row_value e))),
      (Leaf (row_value e)),
      (setValue side (row_value e) (setIndex side invalidNodeValue nd0)).
    simpl in Ht, Hsp. destruct Ht as (_ & Hlen & _).
    assert (row_len e = p + 1) as HL.
    { unfold step in Hsp. rewrite Z.add_0_r in Hsp.
      apply Z.pow_inj_r in Hsp; lia. }
    split_and!; [done|simpl; lia|simpl; lia|by rewrite !setNode_length| | | |done|].
    + by rewrite !setNode_lookup, Hnd0.
    + by destruct side.
    + intros j _ Hj. by rewrite !setNode_lookup_ne by done.
    + intros e0 rest ->%list_elem_of_singleton.
      by rewrite stream_nil by lia.
  - (* a sub-tree *)
    assert (2 ≤ length es)%nat as Hlen.
    { destruct es as [|e [|e' es]]; simpl in *; [done|lia|lia]. }
    pose proof (block_lengths _ _ _ Ht Hsp Hlen) as Hlens.
    assert (p + 1 ≤ 31) as Hp1.
    { destruct es as [|e es]; [done|]. apply Forall_cons in Hlens as [? _]. lia. }
    assert (uint32 (p + 1) = p + 1) as -> by (unfold uint32; apply Z.mod_small; lia).
    destruct (IH (p + 1) base es pre post t0) as (t1 & tr & Hb & Hr & Hin & Hdec);
      [done|done|done|lia|done|lia|lia|done|].
    rewrite Hb. simpl.
    pose proof (build_count _ _ _ _ _ _ _ _ Hb) as [_ Hnext].
    pose proof (build_frame _ _ _ _ _ _ _ _ _ Hb) as (Hl & _ & Hfr).
    exists (setNode t1 k (setIndex side (uint16 (nextNode t0)))), tr,
      (setIndex side (uint16 (nextNode t0)) nd0).
    split_and!; [done|simpl; lia|done|by rewrite setNode_length| | | | |done].
    + rewrite setNode_lookup, Hfr, Hnd0 by (simpl; lia). done.
    + destruct tr as [w|a b]; [simpl in Hin; lia|]. by destruct side.
    + intros j Hj Hjk. rewrite setNode_lookup_ne by done. by apply Hfr.
    + apply (repr_frame (nodes t1)); [lia|done|].
      intros j Hj. apply setNode_lookup_ne. lia.
Qed.

(** The two halves of a block. *)
Lemma block_halves p base es :
  tiles base es → span es = 2 ^ (32 - p) → (2 ^ (32 - p) | base) →
  0 ≤ p → (2 ≤ length es)%nat →
  p ≤ 31 ∧
  ∃ es1 es2, es = es1 ++ es2 ∧ es1 ≠ [] ∧ es2 ≠ [] ∧
    tiles base es1 ∧ span es1 = 2 ^ (31 - p) ∧
    tiles (base + 2 ^ (31 - p)) es2 ∧ span es2 = 2 ^ (31 - p) ∧
    Forall (λ e, p < row_len e ∧ Z.land (row_code e) (2 ^ (31 - p)) = 0 ∧
                 Z.testbit (row_code e) (31 - p) = false) es1 ∧
    Forall (λ e, p < row_len e ∧ Z.land (row_code e) (2 ^ (31 - p)) ≠ 0 ∧
                 Z.testbit (row_code e) (31 - p) = true) es2.
Proof.
  intros Ht Hsp Hbase Hp Hlen.
  pose proof (block_lengths _ _ _ Ht Hsp Hlen) as Hlens.
  assert (p ≤ 31) as Hp31.
  { destruct es as [|e es]; [simpl in Hlen; lia|].
    apply Forall_cons in Hlens as [? _]. lia. }
  split; [done|].
  assert (2 ^ (32 - p) = 2 * 2 ^ (31 - p)) as Hdouble.
  { replace (32 - p) with (1 + (31 - p)) by lia. by rewrite Z.pow_add_r by lia. }
  assert (0 < 2 ^ (31 - p)) as Hpos by (apply Z.pow_pos_nonneg; lia).
  destruct (tiles_prefix (2 ^ (31 - p)) base) with (es := es) (off := 0)
    as (es1 & es2 & -> & Hsp1); [lia| |by rewrite Z.add_0_r| |lia|lia|].
  { etrans; [|done]. apply pow2_divide. lia. }
  { eapply Forall_impl; [exact Hlens|]. intros e He. simpl in He.
    unfold step. apply pow2_divide. lia. }
  rewrite Z.add_0_l in Hsp1. rewrite span_app in Hsp.
  apply tiles_app in Ht as [Ht1 Ht2]. rewrite Hsp1 in Ht2.
  apply Forall_app in Hlens as [Hl1 Hl2].
  destruct Hbase as [m Hm].
  assert (base = m * 2 ^ (31 - p + 1)) as Hm'.
  { rewrite Hm. f_equal. f_equal. lia. }
  exists es1, es2. split_and!; [done| | |done|done|done|lia| |].
  - intros ->. simpl in Hsp1. lia.
  - intros ->. simpl in Hsp. lia.
  - apply Forall_forall. intros e He.
    pose proof (tiles_elem _ _ _ Ht1 He) as (HL & Hlo & Hhi).
    pose proof (step_range e HL). rewrite Forall_forall in Hl1.
    split; [by apply Hl1|]. apply (land_pow2_lower _ m); lia.
  - apply Forall_forall. intros e He.
    pose proof (tiles_elem _ _ _ Ht2 He) as (HL & Hlo & Hhi).
    pose proof (step_range e HL). rewrite Forall_forall in Hl2.
    split; [by apply Hl2|]. apply (land_pow2_upper _ m); [lia|].
    rewrite Z.mul_add_distr_r, <- Hm'.
    replace (31 - p + 1) with (32 - p) by lia. lia.
Qed.

Lemma build_block depth : blockSpec depth.
Proof.
  induction depth as [|depth IH];
    intros p base es pre post t Ht Hsp Hbase Hp Hlen Hdepth Hnext Hroom.
  { destruct (block_halves _ _ _ Ht Hsp Hbase Hp Hlen) as [? _]. simpl in *. lia. }
  destruct (block_halves _ _ _ Ht Hsp Hbase Hp Hlen)
    as (Hp31 & es1 & es2 & -> & Hne1 & Hne2 & Ht1 & Hsp1 & Ht2 & Hsp2 & Hb1 & Hb2).
  rewrite length_app in *.
  assert (1 ≤ length es1 ∧ 1 ≤ length es2)%nat as [Hl1 Hl2].
  { destruct es1, es2; simpl; try done; lia. }
  set (l := Z.of_nat (length pre)).
  set (fri := Z.of_nat (length pre + length es1)).
  set (r := Z.of_nat (length pre + (length es1 + length es2))).
  set (codes := of_rows (pre ++ (es1 ++ es2) ++ post)).
  (* the search *)
  assert (findFirstRight (code codes) (testBit p) l (Z.to_nat (r - l)) (r - l)
          = Done fri) as Hfind.
  { destruct es2 as [|e2 es2]; [done|]. apply Forall_cons in Hb2 as [He2 _].
    rewrite testBit_pow by lia. unfold codes, of_rows. simpl.
    rewrite <- !app_assoc, !fmap_app, fmap_cons.
    unfold l, fri. rewrite <- (length_fmap row_code pre), <- (length_fmap row_code es1).
    apply findFirstRight_found.
    - apply Forall_fmap. eapply Forall_impl; [exact Hb1|]. simpl. tauto.
    - tauto.
    - rewrite !length_fmap. unfold r. simpl in *. lia. }
  rewrite build_unfold, Hfind, bind_Done.
  replace (fri - l =? 0) with false by (symmetry; apply Z.eqb_neq; lia).
  replace (r - fri =? 0) with false by (symmetry; apply Z.eqb_neq; lia).
  cbv beta iota zeta delta [orb].
  destruct (index_in_range (nodes t) (nextNode t)) as [nd0 Hnd0]; [lia|].
  rewrite Hnd0, bind_Done. apply index_Done in Hnd0 as [_ Hnd0].
  (* the left side *)
  destruct (side_block depth true p base es1 pre (es2 ++ post)
              (mkTree (nodes t) (nextNode t + 1)) (nextNode t) nd0 l fri
              (fri - l =? 1))
    as (tl & a & ndl & Hleft & Hnl & Hia & Hll & Hkl & Hsl & Hfl & Hrl & Hdl);
    [done|done|by replace (32 - (p + 1)) with (31 - p) by lia
    |replace (32 - (p + 1)) with (31 - p) by lia;
     etrans; [|exact Hbase]; apply pow2_divide; lia
    |lia|done|lia|simpl; lia|simpl; lia|done|done|done|done|].
  replace (pre ++ es1 ++ es2 ++ post) with (pre ++ (es1 ++ es2) ++ post) in Hleft
    by (by rewrite <- !app_assoc).
  fold codes in Hleft. unfold setIndex, setValue in Hleft.
  simpl in Hnl, Hll, Hfl, Hrl, Hsl.
  rewrite Hleft, bind_Done.
  (* the right side *)
  destruct (side_block depth false p (base + 2 ^ (31 - p)) es2 (pre ++ es1) post
              tl (nextNode t) ndl fri r (r - fri =? 1))
    as (tr & b & ndr & Hright & Hnr & Hib & Hlr & Hkr & Hsr & Hfr & Hrr & Hdr);
    [done|done|by replace (32 - (p + 1)) with (31 - p) by lia
    | |lia|done|lia|lia|lia|done
    |unfold fri; by rewrite length_app
    |unfold r; rewrite length_app; f_equal; lia|done|].
  { replace (32 - (p + 1)) with (31 - p) by lia. apply Z.divide_add_r; [|done].
    etrans; [|exact Hbase]. apply pow2_divide. lia. }
  replace ((pre ++ es1) ++ es2 ++ post) with (pre ++ (es1 ++ es2) ++ post) in Hright
    by (by rewrite <- !app_assoc).
  fold codes in Hright. unfold setIndex, setValue in Hright.
  rewrite Hright, bind_Done.
  pose proof (inner_nonneg a). pose proof (inner_nonneg b).
  exists tr, (Node a b). split_and!; [done| |simpl; lia|].
  - simpl. exists ndr. destruct Hsl as (Hsa & _ & _), Hsr as (Hsb & Hil & Hvl).
    rewrite Hil, Hvl. split_and!; [done|done|by rewrite <- Hnl| |by rewrite <- Hnl].
    apply (repr_frame (nodes tl)); [lia|done|].
    intros j Hj. apply Hfr; lia.
  - intros e rest [He|He]%elem_of_app.
    + rewrite Forall_forall in Hb1. destruct (Hb1 e He) as (HL & _ & Hbit).
      rewrite stream_cons, Hbit by done. simpl. by apply Hdl.
    + rewrite Forall_forall in Hb2. destruct (Hb2 e He) as (HL & _ & Hbit).
      rewrite stream_cons, Hbit by done. simpl. by apply Hdr.
Qed.

(** ** [newHuffmanTree] on a complete code *)

Lemma tiles_code_inj base es e1 e2 :
  tiles base es → e1 ∈ es → e2 ∈ es → row_code e1 = row_code e2 → e1 = e2.
Proof.
  revert base. induction es as [|e es IH]; intros base Ht H1 H2 Hc; [by inv H1|].
  simpl in Ht. destruct Ht as (Hb & Hlen & _ & Ht).
  pose proof (step_range e Hlen).
  inv H1; inv H2; [done| | |by eapply IH].
  - match goal with H : _ ∈ es |- _ =>
      pose proof (tiles_elem _ _ _ Ht H) as (_ & ? & _) end. lia.
  - match goal with H : _ ∈ es |- _ =>
      pose proof (tiles_elem _ _ _ Ht H) as (_ & ? & _) end. lia.
Qed.

Lemma tiles_Sorted base es : tiles base es → Sorted codeLe es.
Proof.
  revert base. induction es as [|e es IH]; intros base Ht; [constructor|].
  simpl in Ht. destruct Ht as (Hb & Hlen & _ & Ht).
  constructor; [by eapply IH|].
  destruct es as [|e' es]; constructor.
  simpl in Ht. destruct Ht as (Hb' & _). unfold codeLe.
  pose proof (step_range e Hlen). lia.
Qed.

Lemma codesOf_length ps : length (codesOf ps) = length ps.
Proof. induction ps; simpl; auto. Qed.

Lemma sortedPairs_length lengths :
  length (sortedPairs lengths) = length lengths.
Proof.
  unfold sortedPairs. rewrite (Permutation_length (sortPairs_perm _)).
  apply length_imap.
Qed.

Section complete_code.

(** A complete code: every length in 1..32 and the Kraft sum 1. *)
Context (lengths : list Z).
Hypothesis Hrange : lengthsInRange lengths.
Hypothesis Hkraft : kraft lengths = 2 ^ 32.

Lemma complete_tiles :
  tiles 0 (reverse (codesOf (sortedPairs lengths))) ∧
  span (reverse (codesOf (sortedPairs lengths))) = 2 ^ 32.
Proof.
  unfold sortedPairs.
  assert (2 ^ 32 = weight (sortPairs (makePairs lengths))) as ->
    by (by rewrite sortPairs_weight).
  apply (codesOf_tiles _ []).
  - apply sortPairs_sorted.
  - by apply sortPairs_inRange.
  - rewrite sortPairs_weight, Hkraft. done.
Qed.

(** For a complete code every sorting algorithm leaves the entries in the
    same order: the order of the loop, reversed. *)
Lemma complete_sorted (S : sorter) :
  sort_Sort S (assignCodes (sortPairs (makePairs lengths)))
  = of_rows (reverse (codesOf (sortedPairs lengths))).
Proof.
  unfold sort_Sort, assignCodes. f_equal.
  rewrite rows_of_rows. fold (assigned lengths). rewrite assigned_sorted by done.
  fold (sortedPairs lengths).
  destruct complete_tiles as [Ht _].
  apply (Sorted_unique_strong codeLe).
  - intros e1 e2 H1 H2 Hle1 Hle2. unfold codeLe in *.
    apply (tiles_code_inj _ _ _ _ Ht); [|done|lia].
    rewrite (sort_perm S) in H1. by apply elem_of_reverse.
  - apply sort_sorted.
  - by eapply tiles_Sorted.
  - by rewrite sort_perm, reverse_Permutation.
Qed.

(** Construction succeeds on every complete code, whatever its size, within
    32 nested calls, and the node slice holds a tree that leads every entry
    to its symbol. *)
Lemma newHuffmanTree_complete (S : sorter) (depth : nat) :
  (2 ≤ length lengths)%nat → (32 ≤ depth)%nat →
  ∃ t tr, newHuffmanTree S depth lengths = Done (t, None) ∧
          repr (nodes t) 0 tr ∧
          inner tr = Z.of_nat (length lengths) - 1 ∧
          decodes 0 (reverse (codesOf (sortedPairs lengths))) tr.
Proof.
  intros Hlen Hdepth.
  destruct complete_tiles as [Ht Hsp].
  pose proof (build_block depth 0 0 (reverse (codesOf (sortedPairs lengths)))
                [] [] (mkTree (replicate (length lengths) zeroNode) 0)) as Hb.
  rewrite length_reverse, codesOf_length, sortedPairs_length in Hb.
  destruct Hb as (t & tr & Hb & Hrep & Hin & Hdec);
    [done|done|by exists 0|lia|done|lia|simpl; lia
    |simpl; rewrite length_replicate; lia|].
  exists t, tr. split_and!; [|done..].
  apply newHuffmanTree_Done. split; [lia|]. exists (uint16 0).
  rewrite complete_sorted. simpl in Hb. by rewrite app_nil_r in Hb.
Qed.

End complete_code.

(** ** Decoding the code of every symbol (claim C1) *)

Lemma lookupSymbol_elem s es c len :
  lookupSymbol s es = Some (c, len) → (c, len, s) ∈ es.
Proof.
  induction es as [|[[c' len'] v] es IH]; [done|]. simpl.
  unfold row_value, row_code, row_len. simpl.
  destruct (Z.eqb_spec v s) as [->|_]; intros H.
  - simplify_eq. by left.
  - right. by apply IH.
Qed.

Lemma lookupSymbol_is_Some s es e :
  e ∈ es → row_value e = s → is_Some (lookupSymbol s es).
Proof.
  intros Hin Hv. induction es as [|e' es IH]; [by inv Hin|]. simpl.
  destruct (Z.eqb_spec (row_value e') s); [done|].
  inv Hin; try done. by apply IH.
Qed.

Lemma codesOf_elem ps e :
  e ∈ codesOf ps → mkPair (row_value e) (row_len e) ∈ ps.
Proof.
  induction ps as [|[v len] ps IH]; simpl; [by inversion 1|].
  intros [->|Hin]%elem_of_cons; [by left|]. right. by apply IH.
Qed.

Lemma elem_codesOf ps p :
  p ∈ ps → ∃ c, (c, pair_length p, pair_value p) ∈ codesOf ps.
Proof.
  induction ps as [|q ps IH]; [by inversion 1|].
  intros [->|Hin]%elem_of_cons; simpl.
  - eexists. by left.
  - destruct (IH Hin) as [c Hc]. exists c. by right.
Qed.

Lemma makePairs_elem lengths p :
  p ∈ makePairs lengths ↔
  ∃ i : nat, lengths !! i = Some (pair_length p) ∧
             pair_value p = uint16 (Z.of_nat i).
Proof.
  unfold makePairs. rewrite elem_of_lookup_imap. split.
  - intros (i & len & -> & Hi). by exists i.
  - intros (i & Hi & Hv). exists i, (pair_length p).
    split; [|done]. destruct p. simpl in *. by rewrite Hv.
Qed.

Lemma stream_0 c len v : stream 0 (c, len, v) = negb <$> codeBits c len.
Proof.
  unfold stream, codeBits, row_code, row_len. simpl.
  rewrite <- list_fmap_compose, Z.sub_0_r. done.
Qed.

(** ** Symbol values are 16 bits wide *)

Lemma alter_valuesBelow ns (j : nat) f :
  valuesBelow ns → keepsValues f → valuesBelow (alter f j ns).
Proof.
  intros Hns Hf. unfold valuesBelow.
  apply Forall_alter; [done|]. intros nd _. apply Hf.
Qed.

Lemma buildSide_values sub t k single vs vi side t' err :
  buildSide sub t k single vs vi (setIndex side) (setValue side) = Done (t', err) →
  Forall (λ v, 0 ≤ v < 2 ^ 16) vs → valuesBelow (nodes t) →
  (∀ t1 i e, sub = Done (t1, (i, e)) → valuesBelow (nodes t1)) →
  valuesBelow (nodes t').
Proof.
  unfold buildSide. intros H Hvs Ht Hsub. destruct single.
  - destruct (index vs vi) as [v|] eqn:Hv; simplify_eq/=.
    apply index_Done in Hv as [_ Hv].
    pose proof (Forall_lookup_1 _ _ _ _ Hvs Hv) as Hrange. simpl in Hrange.
    apply alter_valuesBelow; [apply alter_valuesBelow; [done|]|];
      intros nd [? ?]; destruct side; simpl; auto.
  - destruct sub as [[t1 [i e]]|]; simplify_eq/=.
    apply alter_valuesBelow; [by eapply Hsub|].
    intros nd [? ?]; destruct side; simpl; auto.
Qed.

Lemma build_values depth : ∀ t codes level l r t' i err,
  buildHuffmanNode depth t codes level l r = Done (t', (i, err)) →
  Forall (λ v, 0 ≤ v < 2 ^ 16) (value codes) → valuesBelow (nodes t) →
  valuesBelow (nodes t').
Proof.
  induction depth as [|depth IH]; intros t codes level l r t' i err H Hvs Ht;
    [discriminate|].
  apply build_inv in H.
  destruct H as [| |fri0 l' r' ? ? ? Hlr Hrec|fri e ??? Hk Hleft|fri tl ??? Hk Hleft Hright];
    simplify_eq; eauto.
  - apply (buildSide_values _ _ _ _ _ _ true) in Hleft; eauto.
  - apply (buildSide_values _ _ _ _ _ _ true) in Hleft; eauto.
    apply (buildSide_values _ _ _ _ _ _ false) in Hright; eauto.
Qed.

Lemma assignLoop_values ps :
  row_value <$> (assignLoop ps).1 = pair_value <$> ps.
Proof.
  induction ps as [|p ps IH]; [done|]. simpl.
  destruct (assignLoop ps) as [es [c len]]. simpl in *.
  f_equal. exact IH.
Qed.

(** Every value slot of a tree that [newHuffmanTree] returns, with or
    without error, holds a 16-bit value. *)
Lemma newHuffmanTree_values S depth lengths t err :
  newHuffmanTree S depth lengths = Done (t, err) → valuesBelow (nodes t).
Proof.
  intros [_ [i Hb]]%newHuffmanTree_Done.
  apply build_values in Hb; [done| |].
  - unfold sort_Sort, assignCodes. simpl. rewrite rows_of_rows.
    rewrite (sort_perm S), assignLoop_values, sortPairs_perm.
    apply Forall_fmap, Forall_forall. intros p (j & _ & Hv)%makePairs_elem.
    simpl. rewrite Hv. apply Z.mod_pos_bound. lia.
  - simpl. apply Forall_replicate. simpl. lia.
Qed.

(** What [Decode] returns is the content of a value slot. *)
Lemma Decode_loop_value t : ∀ steps br i v br',
  Decode_loop steps t br i = Done (v, br') →
  valuesBelow (nodes t) → 0 ≤ v < 2 ^ 16.
Proof.
  induction steps as [|steps IH]; intros br i v br' H Ht; [discriminate|].
  rewrite Decode_loop_unfold in H.
  destruct (index (nodes t) i) as [nd|] eqn:Hnd; [|discriminate].
  rewrite bind_Done in H.
  destruct (Decode_bit br) as [[bit br1]|]; [|discriminate].
  rewrite bind_Done in H. cbv beta iota in H.
  apply index_Done in Hnd as [_ Hnd].
  pose proof (Forall_lookup_1 _ _ _ _ Ht Hnd) as [? ?].
  destruct (_ =? invalidNodeValue); [|by eapply IH].
  destruct (bit =? 1); by simplify_eq.
Qed.

(** ** The two limits of claim C1 *)

Lemma kraft_replicate (n : nat) len :
  kraft (replicate n len) = Z.of_nat n * 2 ^ (32 - len).
Proof. induction n as [|n IH]; simpl; [done|]. rewrite IH. lia. Qed.

Lemma many_lengths_complete (n : nat) :
  Z.of_nat n = 65536 →
  Z.of_nat (length (1 :: replicate n 17)) = 65537 ∧
  lengthsInRange (1 :: replicate n 17) ∧
  kraft (1 :: replicate n 17) = 2 ^ 32.
Proof.
  intros Hn. split_and!.
  - rewrite length_cons, length_replicate. lia.
  - apply Forall_cons. split; [lia|]. apply Forall_replicate. lia.
  - change (kraft (1 :: replicate n 17))
      with (2 ^ (32 - 1) + kraft (replicate n 17)).
    rewrite kraft_replicate, Hn. reflexivity.
Qed.

Lemma many_lengths_tree (n : nat) :
  Z.of_nat n = 65536 →
  ∃ t, newHuffmanTree mergeSorter 32 (1 :: replicate n 17) = Done (t, None) ∧
       nextNode t = 65536 ∧
       ∀ br v br', Decode t br = Done (v, br') → v < 65536.
Proof.
  intros Hn. destruct (many_lengths_complete n Hn) as (Hlen & Hr & Hk).
  destruct (newHuffmanTree_complete _ Hr Hk mergeSorter 32)
    as (t & tr & Hnew & _); [lia|lia|].
  exists t. split_and!; [done| |].
  - apply nodes_count in Hnew. lia.
  - intros br v br' Hd. unfold Decode in Hd.
    apply Decode_loop_value in Hd; [lia|]. by eapply newHuffmanTree_values.
Qed.

(** C1, as the specification states it, fails, in two ways.  For the
    lengths [1; 1] symbol 0 has the one-bit code 1, and [Decode] returns
    symbol 1 for the bit 1: it follows the complement of a code.  And the
    array [manyLengths] is a complete code of 65537 symbols, on which
    [newHuffmanTree] returns a tree, but [Decode] returns 16-bit values
    only, and so never the symbol 65536. *)
Lemma code_bits_lead_elsewhere :
  (symbolCode [1; 1] 0 = Some (2 ^ 31, 1) ∧
   codeBits (2 ^ 31) 1 = [true] ∧
   ∃ t, newHuffmanTree mergeSorter 32 [1; 1] = Done (t, None) ∧
        Decode t (feed [true]) = Done (1, feed [])) ∧
  (Z.of_nat (length manyLengths) = 65537 ∧
   lengthsInRange manyLengths ∧ kraft manyLengths = 2 ^ 32 ∧
   ∃ t, newHuffmanTree mergeSorter 32 manyLengths = Done (t, None) ∧
        ∀ br v br', Decode t br = Done (v, br') → v < 65536).
Proof.
  split.
  - split_and!; [vm_compute; reflexivity..|].
    eexists. split; vm_compute; reflexivity.
  - assert (Z.of_nat (Z.to_nat 65536) = 65536) as Hn by (apply Z2Nat.id; discriminate).
    destruct (many_lengths_complete _ Hn) as (Hlen & Hr & Hk).
    destruct (many_lengths_tree _ Hn) as (t & Hnew & _ & Hv).
    unfold manyLengths.
    split; [exact Hlen|]. split; [exact Hr|]. split; [exact Hk|].
    exists t. split; [exact Hnew|exact Hv].
Qed.

(** C1, amended: for every array of 2 to 65536 lengths, each in 1..32, with
    Kraft sum 1, [newHuffmanTree] returns a tree without error (within 32
    nested calls), and for every symbol [Decode], given the complements of
    the bits of the symbol's code, highest first, returns that symbol and
    leaves the bits behind them unread. *)
Theorem complete_code_decodes S depth lengths :
  2 ≤ Z.of_nat (length lengths) ≤ 65536 →
  lengthsInRange lengths → kraft lengths = 2 ^ 32 → (32 ≤ depth)%nat →
  ∃ t, newHuffmanTree S depth lengths = Done (t, None) ∧
       ∀ (s : nat) (len : Z), lengths !! s = Some len →
         ∃ c, symbolCode lengths (Z.of_nat s) = Some (c, len) ∧
              ∀ br rest,
                wf_reader br →
                pending br = (negb <$> codeBits c len) ++ rest →
                ∃ br', Decode t br = Done (Z.of_nat s, br') ∧
                       pending br' = rest.
Proof.
  intros [Hlen Hmax] Hr Hk Hdepth.
  destruct (newHuffmanTree_complete lengths Hr Hk S depth)
    as (t & tr & Hnew & Hrep & Hin & Hdec); [lia|done|].
  exists t. split; [done|]. intros s len Hs.
  pose proof (lookup_lt_Some _ _ _ Hs) as Hslt.
  assert (uint16 (Z.of_nat s) = Z.of_nat s) as Hu
    by (unfold uint16; apply Z.mod_small; lia).
  (* the symbol has an entry, and its entry has the symbol's length *)
  assert (mkPair (Z.of_nat s) len ∈ sortedPairs lengths) as Hp.
  { unfold sortedPairs. rewrite sortPairs_perm. apply makePairs_elem.
    exists s. simpl. by rewrite Hu. }
  apply elem_codesOf in Hp as [c0 Hc0]. simpl in Hc0.
  destruct (lookupSymbol_is_Some (Z.of_nat s) _ _ Hc0 eq_refl) as [[c len'] Hc].
  pose proof (lookupSymbol_elem _ _ _ _ Hc) as He.
  assert (len' = len) as ->.
  { apply codesOf_elem in He. unfold sortedPairs in He.
    rewrite sortPairs_perm in He. apply makePairs_elem in He as (i & Hi & Hv).
    simpl in *. pose proof (lookup_lt_Some _ _ _ Hi).
    unfold uint16 in Hv. rewrite Z.mod_small in Hv by lia.
    assert (i = s) as -> by lia. unfold row_len in Hi. simpl in Hi. congruence. }
  exists c. split.
  { unfold symbolCode. rewrite assigned_sorted by done. exact Hc. }
  intros br rest Hwf Hpend.
  specialize (Hdec (c, len, Z.of_nat s) rest).
  rewrite stream_0 in Hdec. simpl in Hdec.
  unfold Decode.
  destruct (Decode_loop_walk t tr 0 (pending br) (Z.of_nat s) rest br
              (Datatypes.S (available br))) as (br' & Hdone & Hrest & _);
    [lia|lia|lia|done| |done|done|rewrite available_pending by done; lia|by exists br'].
  rewrite Hpend. apply Hdec. by apply elem_of_reverse.
Qed.

Lemma complete_code_decodes_witness :
  ∃ t, newHuffmanTree mergeSorter 32 [2; 2; 1] = Done (t, None) ∧
       ∃ br', Decode t (feed [true; false; true]) = Done (0, br') ∧
              pending br' = [true].
Proof.
  destruct (complete_code_decodes mergeSorter 32 [2; 2; 1])
    as (t & Hnew & Hdec);
    [simpl; lia|repeat constructor; lia|reflexivity|lia|].
  exists t. split; [exact Hnew|].
  destruct (Hdec 0%nat 2 eq_refl) as (c & Hc & Hd).
  vm_compute in Hc. injection Hc as <-.
  exact (Hd (feed [true; false; true]) [true] (feed_wf _) eq_refl).
Defined.

(** ** Node indices and the leaf sentinel (claim C10) *)

(** A call that returns a node returns the 16-bit conversion of the counter
    [nextNode] it was entered with: the first node it takes. *)
Lemma build_index depth : ∀ t codes level l r t' i,
  buildHuffmanNode depth t codes level l r = Done (t', (i, None)) →
  i = uint16 (nextNode t).
Proof.
  induction depth as [|depth IH]; intros t codes level l r t' i H;
    [discriminate|].
  apply build_inv in H.
  destruct H as [| |fri0 l' r' ? ? ? Hlr Hrec| |]; try done. by eapply IH.
Qed.




(** ** Which side of a split goes where (claim C2) *)

Lemma findFirstRight_spec cs test dflt : ∀ steps i,
  0 ≤ i → i + Z.of_nat steps ≤ Z.of_nat (length cs) →
  ∃ fri, findFirstRight cs test i steps dflt = Done fri ∧
    ((i ≤ fri < i + Z.of_nat steps ∧
      (∃ c, index cs fri = Done c ∧ Z.land c test ≠ 0) ∧
      ∀ j c, i ≤ j < fri → index cs j = Done c → Z.land c test = 0) ∨
     (fri = dflt ∧
      ∀ j c, i ≤ j < i + Z.of_nat steps → index cs j = Done c →
             Z.land c test = 0)).
Proof.
  induction steps as [|steps IH]; intros i Hi Hlen; simpl.
  { exists dflt. split; [done|]. right. split; [done|]. intros; lia. }
  destruct (index_in_range cs i) as [c Hc]; [lia|]. rewrite Hc, bind_Done.
  destruct (Z.eqb_spec (Z.land c test) 0) as [Hz|Hnz].
  - destruct (IH (i + 1)) as (fri & -> & Hfri); [lia|lia|].
    exists fri. split; [done|].
    destruct Hfri as [(Hr & Hset & Hclear)|(-> & Hclear)]; [left|right].
    + split_and!; [lia|lia|done|]. intros j c' Hj Hc'.
      destruct (decide (j = i)) as [->|]; [congruence|]. apply (Hclear j); [lia|done].
    + split; [done|]. intros j c' Hj Hc'.
      destruct (decide (j = i)) as [->|]; [congruence|]. apply (Hclear j); [lia|done].
  - exists i. split; [done|]. left. split_and!; [lia|lia|by exists c|].
    intros; lia.
Qed.








(** ** The loop of [Decode] ends *)

Lemma Decode_loop_ends t : ∀ steps br i,
  wf_reader br → (length (pending br) < steps)%nat →
  Decode_loop steps t br i ≠ Fault TooDeep.
Proof.
  induction steps as [|steps IH]; intros br i Hwf Hsteps; [lia|].
  rewrite Decode_loop_unfold.
  destruct (index (nodes t) i) as [nd|f] eqn:Hi.
  - rewrite bind_Done. pose proof (Decode_bit_spec br Hwf) as Hbit.
    destruct (pending br) as [|b bs] eqn:Hp; [by rewrite Hbit|].
    destruct Hbit as (br1 & -> & Hp1 & Hwf1). rewrite bind_Done. cbv beta iota.
    destruct (_ =? invalidNodeValue); [done|].
    apply IH; [done|]. rewrite Hp1. simpl in Hsteps. lia.
  - unfold index in Hi. by repeat case_match; simplify_eq.
Qed.

(** The bound on the iterations of the loop in [Decode] is never reached:
    a call of [Decode] returns a symbol, panics on a node index outside the
    tree, or fails with the error of the bit source. *)
Lemma Decode_terminates t br :
  wf_reader br → Decode t br ≠ Fault TooDeep.
Proof.
  intros Hwf. apply Decode_loop_ends; [done|].
  rewrite <- available_pending by done. lia.
Qed.

(** ** Where a superfluous level is skipped, and where equal codes are found *)

(** A call over entries that agree at the current bit, above bit position
    31, is the call over the same entries one bit position down, when every
    entry has the bit set, or when none has it and the range starts at
    index 0 or ends at twice its start. *)
Theorem superfluous_level_skipped depth t codes level l r :
  0 ≤ l → r ≤ Z.of_nat (length (code codes)) → 2 ≤ r - l → level ≠ 31 →
  (∀ j c, l ≤ j < r → index (code codes) j = Done c →
          Z.land c (testBit level) ≠ 0) ∨
  ((∀ j c, l ≤ j < r → index (code codes) j = Done c →
           Z.land c (testBit level) = 0) ∧ (l = 0 ∨ r = 2 * l)) →
  buildHuffmanNode (S depth) t codes level l r
  = buildHuffmanNode depth t codes (uint32 (level + 1)) l r.
Proof.
  intros Hl Hr Hlen Hlevel Hbits. rewrite build_unfold.
  destruct (findFirstRight_spec (code codes) (testBit level) (r - l)
              (Z.to_nat (r - l)) l) as (fri & -> & Hfri); [lia|lia|].
  rewrite bind_Done.
  destruct (Z.ltb_spec (Z.of_nat (length (code codes))) 2); [lia|].
  destruct (Z.eqb_spec level 31); [done|].
  destruct (index_in_range (code codes) l) as [cl Hcl]; [lia|].
  assert (fri = l ∨ (fri = r - l ∧ (l = 0 ∨ r = 2 * l))) as Hcases.
  { destruct Hbits as [Hset|[Hclear Hpos]],
      Hfri as [(Hin & (cf & Hcf & Hfset) & Hbefore)|(-> & Hall)].
    - left. destruct (decide (fri = l)); [done|].
      exfalso. apply (Hset l cl); [lia|done|]. apply (Hbefore l); [lia|done].
    - exfalso. apply (Hset l cl); [lia|done|]. apply (Hall l); [lia|done].
    - exfalso. apply Hfset, (Hclear fri); [lia|done].
    - by right. }
  destruct Hcases as [-> | [-> Hpos]]; case_eqb; simpl; try lia; f_equal; lia.
Qed.

Lemma superfluous_level_skipped_witness :
  buildHuffmanNode 3 (mkTree (replicate 3 zeroNode) 0)
    (of_rows [(0, 3, 2); (2 ^ 29, 3, 1); (2 ^ 30, 2, 0)]) 0 0 3
  = buildHuffmanNode 2 (mkTree (replicate 3 zeroNode) 0)
      (of_rows [(0, 3, 2); (2 ^ 29, 3, 1); (2 ^ 30, 2, 0)]) 1 0 3.
Proof.
  apply (superfluous_level_skipped 2 _ _ 0 0 3); [lia|simpl; lia|lia|lia|].
  right. split; [|by left].
  intros j c Hj Hc.
  assert (j = 0 ∨ j = 1 ∨ j = 2) as [-> | [-> | ->]] by lia;
    vm_compute in Hc; injection Hc as <-; reflexivity.
Defined.

(** A call at bit position 31 over two or more entries that agree at the
    bit, all with the bit set, or none with it and the range starting at
    index 0 or ending at twice its start, returns the error "equal symbols
    in Huffman tree", leaves the tree as it is and makes no nested call. *)
Theorem equal_symbols_rejected depth t codes l r :
  0 ≤ l → r ≤ Z.of_nat (length (code codes)) → 2 ≤ r - l →
  (∀ j c, l ≤ j < r → index (code codes) j = Done c →
          Z.land c (testBit 31) ≠ 0) ∨
  ((∀ j c, l ≤ j < r → index (code codes) j = Done c →
           Z.land c (testBit 31) = 0) ∧ (l = 0 ∨ r = 2 * l)) →
  buildHuffmanNode (S depth) t codes 31 l r
  = Done (t, (0, Some "equal symbols in Huffman tree"%string)).
Proof.
  intros Hl Hr Hlen Hbits. rewrite build_unfold.
  destruct (findFirstRight_spec (code codes) (testBit 31) (r - l)
              (Z.to_nat (r - l)) l) as (fri & -> & Hfri); [lia|lia|].
  rewrite bind_Done.
  destruct (Z.ltb_spec (Z.of_nat (length (code codes))) 2); [lia|].
  destruct (index_in_range (code codes) l) as [cl Hcl]; [lia|].
  assert (fri = l ∨ (fri = r - l ∧ (l = 0 ∨ r = 2 * l))) as Hcases.
  { destruct Hbits as [Hset|[Hclear Hpos]],
      Hfri as [(Hin & (cf & Hcf & Hfset) & Hbefore)|(-> & Hall)].
    - left. destruct (decide (fri = l)); [done|].
      exfalso. apply (Hset l cl); [lia|done|]. apply (Hbefore l); [lia|done].
    - exfalso. apply (Hset l cl); [lia|done|]. apply (Hall l); [lia|done].
    - exfalso. apply Hfset, (Hclear fri); [lia|done].
    - by right. }
  destruct Hcases as [-> | [-> Hpos]]; case_eqb; simpl; try lia; f_equal; lia.
Qed.

Lemma equal_symbols_rejected_witness :
  buildHuffmanNode 1 (mkTree (replicate 2 zeroNode) 0)
    (of_rows [(0, 0, 0); (0, 0, 1)]) 31 0 2
  = Done (mkTree (replicate 2 zeroNode) 0,
          (0, Some "equal symbols in Huffman tree"%string)).
Proof.
  apply (equal_symbols_rejected 0 _ _ 0 2); [lia|simpl; lia|lia|].
  right. split; [|by left].
  intros j c Hj Hc.
  assert (j = 0 ∨ j = 1) as [-> | ->] by lia;
    vm_compute in Hc; injection Hc as <-; reflexivity.
Defined.

(** * Further properties of the code *)

(** ** The methods [Len], [Less] and [Swap] *)

Lemma exchange_Done {A} (xs : list A) (i j : Z) :
  0 ≤ i < Z.of_nat (length xs) → 0 ≤ j < Z.of_nat (length xs) →
  ∃ xi xj, xs !! Z.to_nat i = Some xi ∧ xs !! Z.to_nat j = Some xj ∧
           exchange xs i j = Done (<[Z.to_nat j := xi]> (<[Z.to_nat i := xj]> xs)).
Proof.
  intros Hi Hj. unfold exchange.
  destruct (index_in_range xs i Hi) as [xi Hxi].
  destruct (index_in_range xs j Hj) as [xj Hxj].
  rewrite Hxi, Hxj. apply index_Done in Hxi as [_ Hxi]. apply index_Done in Hxj as [_ Hxj].
  by exists xi, xj.
Qed.

Lemma exchange_outside {A} (xs : list A) (i j : Z) :
  ¬ (0 ≤ i < Z.of_nat (length xs) ∧ 0 ≤ j < Z.of_nat (length xs)) →
  exchange xs i j = Fault (Panic "index out of range").
Proof.
  intros Hout. unfold exchange.
  destruct (index xs j) as [xj|f] eqn:Hj.
  - apply index_bounds in Hj. destruct (index xs i) as [xi|f] eqn:Hi.
    + apply index_bounds in Hi. lia.
    + unfold index in Hi. by repeat case_match; simplify_eq.
  - unfold index in Hj. by repeat case_match; simplify_eq.
Qed.

(** Writing [a] where [b] was, behind a new head [b], rearranges [a :: xs]. *)
Lemma insert_head_Permutation {A} (xs : list A) (j : nat) (a b : A) :
  xs !! j = Some b → b :: <[j := a]> xs ≡ₚ a :: xs.
Proof.
  revert j. induction xs as [|x xs IH]; intros [|j] Hj; simplify_eq/=.
  - apply perm_swap.
  - rewrite (perm_swap x b), (IH j Hj). apply perm_swap.
Qed.

Lemma exchange_Permutation {A} (xs : list A) (i j : nat) (xi xj : A) :
  xs !! i = Some xi → xs !! j = Some xj →
  <[j := xi]> (<[i := xj]> xs) ≡ₚ xs.
Proof.
  revert i j. induction xs as [|x xs IH]; intros [|i] [|j] Hi Hj; simplify_eq/=.
  - done.
  - by apply insert_head_Permutation.
  - by apply insert_head_Permutation.
  - f_equiv. by apply IH.
Qed.

Lemma rows_lookup h (k : nat) :
  rows h !! k =
  c ← code h !! k; len ← codeLen h !! k; v ← value h !! k; Some (c, len, v).
Proof.
  unfold rows. rewrite !lookup_zip_with.
  by destruct (code h !! k), (codeLen h !! k), (value h !! k).
Qed.

Lemma rows_insert cs ls vs (k : nat) c len v :
  rows (mkCodes (<[k := c]> cs) (<[k := len]> ls) (<[k := v]> vs))
  = <[k := (c, len, v)]> (rows (mkCodes cs ls vs)).
Proof.
  unfold rows. simpl. revert k ls vs.
  induction cs as [|c' cs IH]; intros k ls vs; [done|].
  destruct ls as [|len' ls]; [by destruct k|].
  destruct vs as [|v' vs]; [by destruct k|].
  destruct k; [done|]. simpl. f_equal. apply IH.
Qed.


(** An exchange is undone by the same exchange. *)
Lemma exchange_back {A} (xs xs' : list A) (i j : Z) :
  exchange xs i j = Done xs' → exchange xs' i j = Done xs.
Proof.
  unfold exchange. intros H.
  destruct (index xs j) as [xj|] eqn:Hj; [|discriminate].
  destruct (index xs i) as [xi|] eqn:Hi; [|discriminate].
  rewrite !bind_Done in H. simplify_eq.
  pose proof (index_bounds _ _ _ Hi). pose proof (index_bounds _ _ _ Hj).
  apply index_Done in Hi as [_ Hi]. apply index_Done in Hj as [_ Hj].
  assert (index (<[Z.to_nat j:=xi]> (<[Z.to_nat i:=xj]> xs)) j = Done xi) as ->.
  { apply index_Done. split; [lia|].
    apply list_lookup_insert_eq. rewrite length_insert. lia. }
  rewrite bind_Done.
  destruct (decide (Z.to_nat i = Z.to_nat j)) as [Heq|Hne].
  - rewrite Heq in *. simplify_eq.
    assert (index (<[Z.to_nat j:=xj]> (<[Z.to_nat j:=xj]> xs)) i = Done xj) as ->.
    { apply index_Done. split; [lia|]. rewrite Heq.
      apply list_lookup_insert_eq. rewrite length_insert. lia. }
    rewrite bind_Done. f_equal. by rewrite !list_insert_insert_eq, list_insert_id.
  - assert (index (<[Z.to_nat j:=xi]> (<[Z.to_nat i:=xj]> xs)) i = Done xj) as ->.
    { apply index_Done. split; [lia|].
      rewrite list_lookup_insert_ne by done.
      apply list_lookup_insert_eq. lia. }
    rewrite bind_Done. f_equal.
    rewrite (list_insert_insert_ne _ (Z.to_nat i) (Z.to_nat j)) by done.
    rewrite !list_insert_insert_eq.
    rewrite (list_insert_id _ (Z.to_nat i)) by done. by rewrite list_insert_id.
Qed.

(** [Swap], given two indices inside codes whose slices have one length,
    returns; it exchanges the entries [i] and [j], code, length and symbol
    together, and leaves every other entry where it is: the entries are
    rearranged, the slices keep their length, and the same [Swap] again
    restores the codes. *)
Theorem Swap_exchanges_entries h i j :
  aligned h → 0 ≤ i < Len h → 0 ≤ j < Len h →
  ∃ h' ei ej,
    Swap h i j = Done h' ∧
    index (rows h) i = Done ei ∧ index (rows h) j = Done ej ∧
    rows h' = <[Z.to_nat j := ei]> (<[Z.to_nat i := ej]> (rows h)) ∧
    rows h' ≡ₚ rows h ∧
    aligned h' ∧ Len h' = Len h ∧
    Swap h' i j = Done h.
Proof.
  destruct h as [cs ls vs]. unfold aligned, Len. simpl. intros [Hl Hv] Hi Hj.
  destruct (exchange_Done cs i j) as (ci & cj & Hci & Hcj & Hc); [lia..|].
  destruct (exchange_Done ls i j) as (li & lj & Hli & Hlj & Hls); [lia..|].
  destruct (exchange_Done vs i j) as (vi & vj & Hvi & Hvj & Hvs); [lia..|].
  eexists _, (ci, li, vi), (cj, lj, vj). unfold Swap. simpl.
  rewrite Hc, Hls, Hvs, !bind_Done.
  assert (rows (mkCodes cs ls vs) !! Z.to_nat i = Some (ci, li, vi)) as Hri.
  { rewrite rows_lookup. simpl. by rewrite Hci, Hli, Hvi. }
  assert (rows (mkCodes cs ls vs) !! Z.to_nat j = Some (cj, lj, vj)) as Hrj.
  { rewrite rows_lookup. simpl. by rewrite Hcj, Hlj, Hvj. }
  assert (rows (mkCodes (<[Z.to_nat j:=ci]> (<[Z.to_nat i:=cj]> cs))
                  (<[Z.to_nat j:=li]> (<[Z.to_nat i:=lj]> ls))
                  (<[Z.to_nat j:=vi]> (<[Z.to_nat i:=vj]> vs)))
          = <[Z.to_nat j:=(ci, li, vi)]>
              (<[Z.to_nat i:=(cj, lj, vj)]> (rows (mkCodes cs ls vs)))) as Hrows
    by (by rewrite !rows_insert).
  split_and!; [reflexivity|by apply index_Done; split; [lia|]..|done| | | | |].
  - rewrite Hrows. by apply exchange_Permutation.
  - simpl. by rewrite !length_insert.
  - simpl. by rewrite !length_insert.
  - simpl. by rewrite !length_insert.
  - simpl. rewrite (exchange_back _ _ _ _ Hc), (exchange_back _ _ _ _ Hls),
      (exchange_back _ _ _ _ Hvs). done.
Qed.

Lemma Swap_exchanges_entries_witness :
  ∃ h', Swap (of_rows [(0, 2, 7); (5, 3, 8); (9, 3, 4)]) 2 0 = Done h' ∧
        rows h' = [(9, 3, 4); (5, 3, 8); (0, 2, 7)].
Proof.
  destruct (Swap_exchanges_entries (of_rows [(0, 2, 7); (5, 3, 8); (9, 3, 4)]) 2 0)
    as (h' & ei & ej & Hs & Hi & Hj & Hrows & _);
    [done|unfold Len; simpl; lia..|].
  exists h'. split; [exact Hs|].
  rewrite Hrows. vm_compute in Hi, Hj. by simplify_eq.
Defined.

(** [Swap] with an index outside the codes panics. *)
Theorem Swap_outside_panics h i j :
  ¬ (0 ≤ i < Len h ∧ 0 ≤ j < Len h) →
  Swap h i j = Fault (Panic "index out of range").
Proof.
  intros Hout. unfold Swap. by rewrite (exchange_outside (code h)) by exact Hout.
Qed.

Lemma Swap_outside_panics_witness :
  Swap (of_rows [(0, 2, 7); (5, 3, 8)]) 0 2 = Fault (Panic "index out of range").
Proof.
  apply Swap_outside_panics. unfold Len. simpl. lia.
Defined.



(** ** The errors of [buildHuffmanNode] and [newHuffmanTree] *)

Lemma buildSide_error sub t k single vs vi setI setV t' e :
  buildSide sub t k single vs vi setI setV = Done (t', Some e) →
  ∃ t1 i, sub = Done (t1, (i, Some e)).
Proof.
  unfold buildSide. destruct single.
  - destruct (index vs vi); simpl; intros; simplify_eq.
  - destruct sub as [[t1 [i err]]|]; simpl; intros; simplify_eq. eauto.
Qed.

(** Over codes of two or more entries a call has one error to return. *)
Lemma build_error depth : ∀ t codes level l r t' i e,
  2 ≤ Z.of_nat (length (code codes)) →
  buildHuffmanNode depth t codes level l r = Done (t', (i, Some e)) →
  e = "equal symbols in Huffman tree"%string.
Proof.
  induction depth as [|depth IH]; intros t codes level l r t' i e Hlen H;
    [discriminate|].
  apply build_inv in H.
  destruct H as [? ? ? Herr|? ? ? Herr|fri0 l' r' ? ? ? Hlr Hrec
                |fri e' ??? Hk Hleft ? Herr|fri tl ??? Hk Hleft Hright].
  - lia.
  - by simplify_eq.
  - by eapply IH.
  - simplify_eq. apply buildSide_error in Hleft as (t1 & i1 & Hsub). by eapply IH.
  - apply buildSide_error in Hright as (t1 & i1 & Hsub). by eapply IH.
Qed.

(** [newHuffmanTree] returns only for two or more lengths, and the one
    error it returns is "equal symbols in Huffman tree": the error "empty
    Huffman tree" of [buildHuffmanNode] is out of its reach. *)
Theorem newHuffmanTree_errors S depth lengths t err :
  newHuffmanTree S depth lengths = Done (t, err) →
  2 ≤ Z.of_nat (length lengths) ∧
  (err = None ∨ err = Some "equal symbols in Huffman tree"%string).
Proof.
  intros [Hlen [i Hb]]%newHuffmanTree_Done. split; [done|].
  destruct err as [e|]; [right|by left].
  apply build_error in Hb as ->; [done|].
  rewrite sorted_codes_length. lia.
Qed.

Lemma newHuffmanTree_errors_witness :
  newHuffmanTree mergeSorter 32 [0; 0]
    = Done (mkTree [zeroNode; zeroNode] 0, Some "equal symbols in Huffman tree"%string) ∧
  2 ≤ Z.of_nat (length [0; 0]).
Proof.
  assert (newHuffmanTree mergeSorter 32 [0; 0]
          = Done (mkTree [zeroNode; zeroNode] 0,
                  Some "equal symbols in Huffman tree"%string)) as Hrun
    by (vm_compute; reflexivity).
  split; [exact Hrun|].
  exact (proj1 (newHuffmanTree_errors mergeSorter 32 [0; 0] _ _ Hrun)).
Defined.

(** The outermost call over codes of fewer than two entries returns the
    error "empty Huffman tree" and leaves the tree as it is. *)
Theorem empty_tree_rejected depth t codes level :
  Z.of_nat (length (code codes)) < 2 →
  buildHuffmanNode (S depth) t codes level 0 (Z.of_nat (length (code codes)))
  = Done (t, (0, Some "empty Huffman tree"%string)).
Proof.
  intros Hlen. rewrite build_unfold.
  destruct (code codes) as [|c [|c' cs]] eqn:Hc; simpl in Hlen; [| |lia].
  - reflexivity.
  - simpl. destruct (Z.land c (testBit level) =? 0); reflexivity.
Qed.

Lemma empty_tree_rejected_witness :
  buildHuffmanNode 1 (mkTree [zeroNode] 0) (of_rows [(0, 1, 0)]) 0 0 1
  = Done (mkTree [zeroNode] 0, (0, Some "empty Huffman tree"%string)).
Proof.
  apply (empty_tree_rejected 0 (mkTree [zeroNode] 0) (of_rows [(0, 1, 0)]) 0).
  simpl. lia.
Defined.

(** ** The nodes a call writes *)

Lemma buildSide_above sub t k single vs vi setI setV t' err :
  buildSide sub t k single vs vi setI setV = Done (t', err) →
  0 ≤ k < nextNode t →
  (∀ t1 i e, sub = Done (t1, (i, e)) →
     nextNode t ≤ nextNode t1 ∧
     ∀ j : nat, nextNode t1 ≤ Z.of_nat j → nodes t1 !! j = nodes t !! j) →
  ∀ j : nat, nextNode t' ≤ Z.of_nat j → nodes t' !! j = nodes t !! j.
Proof.
  unfold buildSide. intros H Hk Hsub. destruct single.
  - destruct (index vs vi); simplify_eq/=.
    intros j Hj. by rewrite !list_lookup_alter_ne by lia.
  - destruct sub as [[t1 [i e]]|]; simplify_eq/=.
    destruct (Hsub t1 i err eq_refl) as (Hnext & Hfr).
    intros j Hj. rewrite list_lookup_alter_ne by lia. by apply Hfr.
Qed.

Lemma build_above depth : ∀ t codes level l r t' i err,
  buildHuffmanNode depth t codes level l r = Done (t', (i, err)) →
  ∀ j : nat, nextNode t' ≤ Z.of_nat j → nodes t' !! j = nodes t !! j.
Proof.
  induction depth as [|depth IH]; intros t codes level l r t' i err H;
    [discriminate|].
  apply build_inv in H.
  destruct H as [| |fri0 l' r' ? ? ? Hlr Hrec|fri e ??? Hk Hleft|fri tl ??? Hk Hleft Hright];
    simplify_eq; eauto.
  - intros j Hj.
    apply (buildSide_above _ _ _ _ _ _ _ _ _ _ Hleft); [simpl; lia| |lia].
    intros t1 i1 e1 Hsub. split; [by apply build_frame in Hsub as (_ & ? & _)|].
    by eapply IH.
  - pose proof Hleft as Hleft'. pose proof Hright as Hright'.
    apply buildSide_frame in Hleft' as (_ & Hnl & _);
      [|simpl; lia|by intros ??? ?%build_frame].
    apply buildSide_frame in Hright' as (_ & Hnr & _);
      [|simpl in *; lia|by intros ??? ?%build_frame].
    simpl in *.
    intros j Hj.
    rewrite (buildSide_above _ _ _ _ _ _ _ _ _ _ Hright); [| lia | | lia].
    + apply (buildSide_above _ _ _ _ _ _ _ _ _ _ Hleft); [simpl; lia| |lia].
      intros t1 i1 e1 Hsub. split; [by apply build_frame in Hsub as (_ & ? & _)|].
      by eapply IH.
    + intros t1 i1 e1 Hsub. split; [by apply build_frame in Hsub as (_ & ? & _)|].
      by eapply IH.
Qed.

(** A call that returns, with or without error, has kept the length of the
    node slice, has not lowered [nextNode], and has written only nodes it
    took itself: every node below the [nextNode] it was entered with and
    every node from the [nextNode] it leaves is as before. *)
Theorem build_writes_own_nodes depth t codes level l r t' i err :
  buildHuffmanNode depth t codes level l r = Done (t', (i, err)) →
  length (nodes t') = length (nodes t) ∧
  nextNode t ≤ nextNode t' ∧
  ∀ j : nat, Z.of_nat j < nextNode t ∨ nextNode t' ≤ Z.of_nat j →
             nodes t' !! j = nodes t !! j.
Proof.
  intros H. pose proof (build_frame _ _ _ _ _ _ _ _ _ H) as (Hlen & Hnext & Hlow).
  split_and!; [done..|]. intros j [Hj|Hj]; [by apply Hlow|].
  by eapply build_above.
Qed.

Lemma build_writes_own_nodes_witness :
  ∃ t', buildHuffmanNode 3 (mkTree (replicate 4 zeroNode) 1)
          (of_rows [(0, 1, 1); (2 ^ 31, 1, 0)]) 0 0 2
        = Done (t', (1, None)) ∧
        nextNode t' = 2 ∧
        nodes t' !! 0%nat = Some zeroNode ∧ nodes t' !! 2%nat = Some zeroNode.
Proof.
  eexists. split; [vm_compute; reflexivity|]. split; [reflexivity|].
  destruct (build_writes_own_nodes 3 (mkTree (replicate 4 zeroNode) 1)
              (of_rows [(0, 1, 1); (2 ^ 31, 1, 0)]) 0 0 2 _ 1 None
              ltac:(vm_compute; reflexivity)) as (_ & _ & Hfr).
  split.
  - rewrite (Hfr 0%nat); [reflexivity|left; simpl; lia].
  - rewrite (Hfr 2%nat); [reflexivity|right; simpl; lia].
Defined.

(** A call that returns without error was given two entries or more, has
    taken one node less than it was given entries, and returns the index of
    the first node it took: the 16-bit conversion of the [nextNode] it was
    entered with. *)
Theorem build_takes_nodes depth t codes level l r t' i :
  buildHuffmanNode depth t codes level l r = Done (t', (i, None)) →
  2 ≤ r - l ∧ nextNode t' = nextNode t + (r - l) - 1 ∧ i = uint16 (nextNode t).
Proof.
  intros H. pose proof (build_count _ _ _ _ _ _ _ _ H) as [? ?].
  split_and!; [done..|]. by eapply build_index.
Qed.

Lemma build_takes_nodes_witness :
  ∃ t', buildHuffmanNode 3 (mkTree (replicate 4 zeroNode) 1)
          (of_rows [(0, 2, 2); (2 ^ 30, 2, 1); (2 ^ 31, 1, 0)]) 0 0 3
        = Done (t', (1, None)) ∧ nextNode t' = 1 + (3 - 0) - 1.
Proof.
  eexists. split; [vm_compute; reflexivity|].
  eapply (build_takes_nodes 3 (mkTree (replicate 4 zeroNode) 1)
            (of_rows [(0, 2, 2); (2 ^ 30, 2, 1); (2 ^ 31, 1, 0)]) 0 0 3 _ 1).
  vm_compute. reflexivity.
Defined.

(** ** [Decode] on the trees of [newHuffmanTree] *)







(** ** The bits [Decode] takes *)




(** ** The codes of the symbols when the Kraft sum is at most 1 *)

(** Where the entries of the loop lie: below the sum of the steps. *)
Lemma codesOf_top ps e :
  pairsInRange ps → weight ps ≤ 2 ^ 32 → e ∈ codesOf ps →
  1 ≤ row_len e ≤ 32 ∧ 0 ≤ row_code e ∧ row_code e + step e ≤ weight ps.
Proof.
  intros Hr Hw. induction ps as [|[v l] ps IH]; [by inversion 1|].
  apply Forall_cons in Hr as [Hp Hr]. rewrite weight_cons in *. simpl in *.
  pose proof (step_pos l Hp). pose proof (weight_nonneg ps).
  intros [->|Hin]%elem_of_cons.
  - unfold step, row_len, row_code. simpl.
    unfold uint32. rewrite Z.mod_small by lia. lia.
  - destruct IH as (? & ? & ?); [done|lia|done|]. lia.
Qed.

Lemma codesOf_code_inj ps e1 e2 :
  pairsInRange ps → weight ps ≤ 2 ^ 32 →
  e1 ∈ codesOf ps → e2 ∈ codesOf ps → row_code e1 = row_code e2 → e1 = e2.
Proof.
  intros Hr Hw. induction ps as [|[v l] ps IH]; [by inversion 1|].
  apply Forall_cons in Hr as [Hp Hr]. rewrite weight_cons in *. simpl in *.
  pose proof (step_pos l Hp). pose proof (weight_nonneg ps).
  assert (∀ e, e ∈ codesOf ps → row_code e < uint32 (weight ps)) as Hlt.
  { intros e He. destruct (codesOf_top ps e) as (Hl & ? & ?); [done|lia|done|].
    pose proof (step_range e Hl). unfold uint32. rewrite Z.mod_small by lia. lia. }
  intros [->|H1]%elem_of_cons [->|H2]%elem_of_cons Hc; [done| | |].
  - apply Hlt in H2. unfold row_code in *. simpl in *. lia.
  - apply Hlt in H1. unfold row_code in *. simpl in *. lia.
  - apply IH; [done|lia|done..].
Qed.

Lemma codesOf_descending ps :
  pairsInRange ps → weight ps ≤ 2 ^ 32 → Sorted (flip codeLe) (codesOf ps).
Proof.
  intros Hr Hw. induction ps as [|[v l] ps IH]; [constructor|].
  apply Forall_cons in Hr as [Hp Hr]. rewrite weight_cons in *. simpl in *.
  pose proof (step_pos l Hp). pose proof (weight_nonneg ps).
  constructor; [apply IH; [done|lia]|].
  destruct ps as [|[v' l'] ps]; constructor.
  destruct (codesOf_top ((mkPair v' l') :: ps) (uint32 (weight ps), l', v'))
    as (Hl & ? & ?); [done|lia|by left|].
  pose proof (step_range _ Hl).
  unfold flip, codeLe, row_code in *. simpl in *.
  unfold uint32 at 2. rewrite Z.mod_small by lia. lia.
Qed.

(** When no code value wraps, every sorting algorithm leaves the entries in
    the same order: the order of the loop, reversed. *)
Lemma canonical_sorted (S : sorter) lengths :
  lengthsInRange lengths → kraft lengths ≤ 2 ^ 32 →
  sort_Sort S (assignCodes (sortPairs (makePairs lengths)))
  = of_rows (reverse (codesOf (sortedPairs lengths))).
Proof.
  intros Hr Hk. unfold sort_Sort, assignCodes. f_equal.
  rewrite rows_of_rows. fold (assigned lengths). rewrite assigned_sorted by done.
  fold (sortedPairs lengths).
  pose proof (sortPairs_inRange _ Hr) as Hpr. rewrite <- sortPairs_weight in Hk.
  fold (sortedPairs lengths) in Hpr, Hk.
  apply (Sorted_unique_strong codeLe).
  - intros e1 e2 H1 H2 Hle1 Hle2. unfold codeLe in *.
    apply (codesOf_code_inj (sortedPairs lengths)); [done|done| | |lia].
    + by rewrite (sort_perm S) in H1.
    + by apply elem_of_reverse.
  - apply sort_sorted.
  - exact (Sorted_reverse _ _ (codesOf_descending _ Hpr Hk)).
  - by rewrite sort_perm, reverse_Permutation.
Qed.

(** When every length is in 1..32 and the Kraft sum is at most 1, the
    algorithm of [sort.Sort] has no part in the result: no two codes are
    equal, and [newHuffmanTree] returns the same, or panics alike, with
    every sorting algorithm. *)
Theorem sort_algorithm_irrelevant S1 S2 depth lengths :
  lengthsInRange lengths → kraft lengths ≤ 2 ^ 32 →
  newHuffmanTree S1 depth lengths = newHuffmanTree S2 depth lengths.
Proof.
  intros Hr Hk. unfold newHuffmanTree.
  by rewrite (canonical_sorted S1), (canonical_sorted S2).
Qed.

Lemma sort_algorithm_irrelevant_witness :
  newHuffmanTree mergeSorter 32 [3; 1; 3] = newHuffmanTree tieSorter 32 [3; 1; 3].
Proof.
  apply sort_algorithm_irrelevant; [repeat constructor; lia|vm_compute; discriminate].
Defined.

(** Where the code of a symbol lies, when it is found. *)
Lemma lookupSymbol_codesOf_top s ps c len :
  pairsInRange ps → weight ps ≤ 2 ^ 32 →
  lookupSymbol s (codesOf ps) = Some (c, len) →
  0 ≤ c ∧ c + 2 ^ (32 - len) ≤ weight ps ∧ mkPair s len ∈ ps.
Proof.
  intros Hr Hw Hfound. pose proof (lookupSymbol_elem _ _ _ _ Hfound) as Hin.
  destruct (codesOf_top ps _ Hr Hw Hin) as (_ & ? & ?).
  split_and!; [done..|]. by apply codesOf_elem in Hin.
Qed.

(** The code values descend in the order of the sorted pairs, and the code
    ranges do not overlap: of two symbols, the one with the shorter code,
    or with the lower value when the lengths are equal, has its code value
    at or above the end of the range of the other. *)
Theorem code_ranges_descend lengths s1 s2 c1 c2 len1 len2 :
  lengthsInRange lengths → kraft lengths ≤ 2 ^ 32 →
  len1 < len2 ∨ (len1 = len2 ∧ s1 < s2) →
  symbolCode lengths s1 = Some (c1, len1) →
  symbolCode lengths s2 = Some (c2, len2) →
  c2 + 2 ^ (32 - len2) ≤ c1.
Proof.
  intros Hr Hk Hord. unfold symbolCode. rewrite assigned_sorted by done.
  rewrite <- sortPairs_weight in Hk.
  pose proof (sortPairs_inRange _ Hr) as Hpr.
  pose proof (sortPairs_sorted (makePairs lengths)) as Hsorted.
  revert Hk Hpr Hsorted. generalize (sortPairs (makePairs lengths)) as ps.
  clear Hr. intros ps Hw Hr Hsorted H1 H2.
  induction ps as [|[v l] ps IH]; [done|].
  apply Forall_cons in Hr as [Hp Hr].
  apply StronglySorted_cons in Hsorted as [Hle Hsorted].
  rewrite weight_cons in Hw. simpl in *.
  pose proof (step_pos l Hp). pose proof (weight_nonneg ps).
  unfold row_value, row_code, row_len in *. simpl in *.
  destruct (Z.eqb_spec v s1) as [->|Hne1].
  - destruct (Z.eqb_spec s1 s2) as [->|]; [simplify_eq; lia|]. simplify_eq.
    apply lookupSymbol_codesOf_top in H2 as (? & ? & _); [|done|lia].
    unfold uint32. rewrite Z.mod_small by lia. lia.
  - destruct (Z.eqb_spec v s2) as [->|Hne2].
    + simplify_eq. apply lookupSymbol_codesOf_top in H1 as (_ & _ & Hin); [|done|lia].
      rewrite Forall_forall in Hle. apply Hle in Hin.
      pose proof (pairLe_length _ _ Hin) as Hlen. simpl in Hlen.
      destruct Hord as [?|[-> ?]]; [lia|].
      apply pairLe_value in Hin; simpl in *; lia.
    + apply IH; [lia|done..].
Qed.

Lemma code_ranges_descend_witness :
  symbolCode [3; 1; 3] 1 = Some (2 ^ 30, 1) ∧
  symbolCode [3; 1; 3] 2 = Some (0, 3) ∧
  0 + 2 ^ (32 - 3) ≤ 2 ^ 30.
Proof.
  split_and!; [vm_compute; reflexivity..|].
  apply (code_ranges_descend [3; 1; 3] 1 2 (2 ^ 30) 0 1 3);
    [repeat constructor; lia|vm_compute; discriminate|lia
    |vm_compute; reflexivity..].
Defined.

(** ** The codes of a complete code *)

Lemma complete_two lengths :
  lengthsInRange lengths → kraft lengths = 2 ^ 32 → (2 ≤ length lengths)%nat.
Proof.
  intros Hr Hk. destruct lengths as [|a [|b ls]]; simpl in *; [lia| |lia].
  apply Forall_cons in Hr as [Ha _]. pose proof (step_pos a Ha). lia.
Qed.

Lemma tiles_aligned base es e :
  tiles base es → e ∈ es → (step e | row_code e).
Proof.
  revert base. induction es as [|e' es IH]; intros base Ht Hin; [by inv Hin|].
  simpl in Ht. destruct Ht as (Hc & _ & Hal & Ht).
  apply elem_of_cons in Hin as [->|Hin]; [by rewrite Hc|by eapply IH].
Qed.

Lemma symbolCode_entry lengths s c len :
  lengthsInRange lengths → symbolCode lengths s = Some (c, len) →
  (c, len, s) ∈ reverse (codesOf (sortedPairs lengths)).
Proof.
  intros Hr. unfold symbolCode. rewrite assigned_sorted by done.
  intros He%lookupSymbol_elem. by apply elem_of_reverse.
Qed.

(** The code of a symbol of a complete code sits at the most-significant
    end of its 32 bits: its length is in 1..32, the bits below the [len]
    highest are zero, and the code values up to the next multiple of
    [2 ^ (32 - len)] are inside the 32 bits. *)
Theorem codes_left_justified lengths s c len :
  lengthsInRange lengths → kraft lengths = 2 ^ 32 →
  symbolCode lengths s = Some (c, len) →
  1 ≤ len ≤ 32 ∧ 0 ≤ c ∧ c + 2 ^ (32 - len) ≤ 2 ^ 32 ∧
  c mod 2 ^ (32 - len) = 0.
Proof.
  intros Hr Hk He%symbolCode_entry; [|done].
  destruct (complete_tiles lengths Hr Hk) as [Ht Hsp].
  pose proof (tiles_elem _ _ _ Ht He) as (Hl & Hlo & Hhi).
  pose proof (tiles_aligned _ _ _ Ht He) as Hal.
  unfold step, row_len, row_code in *. simpl in *.
  split_and!; [lia..|].
  apply Z.mod_divide in Hal; [done|]. pose proof (step_pos len). lia.
Qed.

Lemma codes_left_justified_witness :
  symbolCode [2; 2; 1] 0 = Some (2 ^ 30, 2) ∧ 2 ^ 30 mod 2 ^ (32 - 2) = 0.
Proof.
  split; [vm_compute; reflexivity|].
  apply (codes_left_justified [2; 2; 1] 0 (2 ^ 30) 2);
    [repeat constructor; lia|reflexivity|vm_compute; reflexivity].
Defined.

(** The codes of a complete code are prefix-free: the code bits of a symbol
    are not the first code bits of another symbol. *)
Theorem complete_code_prefix_free lengths s1 s2 c1 c2 len1 len2 :
  lengthsInRange lengths → kraft lengths = 2 ^ 32 →
  symbolCode lengths s1 = Some (c1, len1) →
  symbolCode lengths s2 = Some (c2, len2) →
  s1 ≠ s2 →
  ¬ codeBits c1 len1 `prefix_of` codeBits c2 len2.
Proof.
  intros Hr Hk H1%symbolCode_entry H2%symbolCode_entry Hne [d Hd]; [|done..].
  destruct (newHuffmanTree_complete lengths Hr Hk mergeSorter 32)
    as (t & tr & _ & _ & _ & Hdec); [by apply complete_two|lia|].
  pose proof (Hdec _ (negb <$> d) H1) as Hw1.
  pose proof (Hdec _ [] H2) as Hw2.
  rewrite stream_0 in Hw1, Hw2. rewrite Hd, fmap_app, app_nil_r in Hw2.
  simpl in Hw1, Hw2. congruence.
Qed.

Lemma complete_code_prefix_free_witness :
  symbolCode [2; 2; 1] 2 = Some (2 ^ 31, 1) ∧
  symbolCode [2; 2; 1] 0 = Some (2 ^ 30, 2) ∧
  ¬ codeBits (2 ^ 31) 1 `prefix_of` codeBits (2 ^ 30) 2.
Proof.
  split; [vm_compute; reflexivity|]. split; [vm_compute; reflexivity|].
  apply (complete_code_prefix_free [2; 2; 1] 2 0 (2 ^ 31) (2 ^ 30) 1 2);
    [repeat constructor; lia|reflexivity|vm_compute; reflexivity..|lia].
Defined.

(** ** Every stream decodes on a complete code *)

(** The bits that lead to the entries of a block cover the streams: every
    stream of enough bits begins with the bits of one entry. *)
Lemma block_covers : ∀ (d : nat) p base es bs,
  tiles base es → span es = 2 ^ (32 - p) → (2 ^ (32 - p) | base) → 0 ≤ p →
  es ≠ [] → 32 - p ≤ Z.of_nat d → 32 - p ≤ Z.of_nat (length bs) →
  ∃ e rest, e ∈ es ∧ bs = stream p e ++ rest.
Proof.
  induction d as [|d IH]; intros p base es bs Ht Hsp Hbase Hp Hne Hd Hbs.
  all: destruct es as [|e [|e' es]]; [done| |].
  all: try (* one entry: its code has [p] bits *)
    (exists e, bs; split; [by left|];
     simpl in Ht, Hsp; destruct Ht as (_ & Hlen & _);
     rewrite stream_nil; [done|];
     rewrite Z.add_0_r in Hsp; unfold step in Hsp;
     destruct (Z.le_gt_cases 0 (32 - p)) as [Hpos|Hneg];
     [apply Z.pow_inj_r in Hsp; lia
     |rewrite (Z.pow_neg_r 2 (32 - p)) in Hsp by lia;
      pose proof (step_pos _ Hlen); lia]).
  - destruct (block_halves p base (e :: e' :: es)) as [Hp31 _];
      [done..|simpl; lia|lia].
  - destruct (block_halves p base (e :: e' :: es))
      as (Hp31 & es1 & es2 & Heq & Hne1 & Hne2 & Ht1 & Hsp1 & Ht2 & Hsp2 & Hb1 & Hb2);
      [done..|simpl; lia|].
    rewrite Heq. destruct bs as [|b bs]; [simpl in Hbs; lia|].
    assert (2 ^ (32 - (p + 1)) | base) as Hbase'.
    { etrans; [|exact Hbase]. apply pow2_divide. lia. }
    replace (31 - p) with (32 - (p + 1)) in * by lia.
    destruct b.
    + destruct (IH (p + 1) base es1 bs) as (e1 & rest & Hin & ->);
        [done|done|done|lia|done|lia|simpl in Hbs; lia|].
      exists e1, rest. split; [apply elem_of_app; by left|].
      rewrite Forall_forall in Hb1. destruct (Hb1 e1 Hin) as (HL & _ & Hbit).
      replace (32 - (p + 1)) with (31 - p) in Hbit by lia.
      by rewrite (stream_cons p e1 HL), Hbit.
    + destruct (IH (p + 1) (base + 2 ^ (32 - (p + 1))) es2 bs)
        as (e2 & rest & Hin & ->);
        [done|done|by apply Z.divide_add_r|lia|done|lia|simpl in Hbs; lia|].
      exists e2, rest. split; [apply elem_of_app; by right|].
      rewrite Forall_forall in Hb2. destruct (Hb2 e2 Hin) as (HL & _ & Hbit).
      replace (32 - (p + 1)) with (31 - p) in Hbit by lia.
      by rewrite (stream_cons p e2 HL), Hbit.
Qed.

Lemma codesOf_values ps : row_value <$> codesOf ps = pair_value <$> ps.
Proof. induction ps as [|p ps IH]; [done|]. simpl. f_equal. exact IH. Qed.

(** Among entries with distinct symbols, the entry of a symbol is the one
    found for it. *)
Lemma lookupSymbol_NoDup es c len v :
  NoDup (row_value <$> es) → (c, len, v) ∈ es →
  lookupSymbol v es = Some (c, len).
Proof.
  induction es as [|e es IH]; [by inversion 2|].
  rewrite fmap_cons. intros [Hnot Hnd]%NoDup_cons Hin. simpl.
  apply elem_of_cons in Hin as [<-|Hin].
  - unfold row_value. simpl. by rewrite Z.eqb_refl.
  - destruct (Z.eqb_spec (row_value e) v) as [Heq|_]; [|by apply IH].
    exfalso. apply Hnot. rewrite Heq.
    apply (list_elem_of_fmap_2 row_value) in Hin. exact Hin.
Qed.

(** Up to 65536 symbols have distinct 16-bit values. *)
Lemma sortedPairs_NoDup lengths :
  Z.of_nat (length lengths) ≤ 65536 →
  NoDup (pair_value <$> sortedPairs lengths).
Proof.
  intros Hn. unfold sortedPairs. rewrite sortPairs_perm.
  unfold makePairs. rewrite fmap_imap.
  change (imap _ lengths)
    with (imap (λ (j : nat) (_ : Z), uint16 (Z.of_nat j)) lengths).
  rewrite imap_seq_0. apply NoDup_fmap_2_strong; [|apply NoDup_seq].
  intros i j Hi%elem_of_seq Hj%elem_of_seq Heq.
  unfold uint16 in Heq. rewrite !Z.mod_small in Heq by lia. lia.
Qed.

(** The entries of the code of up to 65536 symbols are the codes of the
    symbols. *)
Lemma entry_symbolCode lengths e :
  lengthsInRange lengths → Z.of_nat (length lengths) ≤ 65536 →
  e ∈ codesOf (sortedPairs lengths) →
  ∃ s : nat, row_value e = Z.of_nat s ∧ lengths !! s = Some (row_len e) ∧
             symbolCode lengths (Z.of_nat s) = Some (row_code e, row_len e).
Proof.
  intros Hr Hn He. pose proof (codesOf_elem _ _ He) as Hp.
  unfold sortedPairs in Hp. rewrite sortPairs_perm in Hp.
  apply makePairs_elem in Hp as (s & Hs & Hv). simpl in Hs, Hv.
  pose proof (lookup_lt_Some _ _ _ Hs).
  unfold uint16 in Hv. rewrite Z.mod_small in Hv by lia.
  exists s. split_and!; [done..|].
  unfold symbolCode. rewrite assigned_sorted by done. fold (sortedPairs lengths).
  rewrite <- Hv. apply lookupSymbol_NoDup.
  - rewrite codesOf_values. by apply sortedPairs_NoDup.
  - by destruct e as [[c len] v].
Qed.

(** On the tree of a complete code of up to 65536 symbols no stream is
    invalid: from every stream of 32 bits or more [Decode] returns a symbol
    of the alphabet, after taking exactly the complements of the bits of
    that symbol's code, which are 32 at most. *)
Theorem complete_code_every_stream S depth lengths :
  Z.of_nat (length lengths) ≤ 65536 →
  lengthsInRange lengths → kraft lengths = 2 ^ 32 → (32 ≤ depth)%nat →
  ∃ t, newHuffmanTree S depth lengths = Done (t, None) ∧
       ∀ br, wf_reader br → (32 ≤ length (pending br))%nat →
         ∃ (s : nat) len c br',
           lengths !! s = Some len ∧ 1 ≤ len ≤ 32 ∧
           symbolCode lengths (Z.of_nat s) = Some (c, len) ∧
           Decode t br = Done (Z.of_nat s, br') ∧
           pending br = (negb <$> codeBits c len) ++ pending br'.
Proof.
  intros Hmax Hr Hk Hdepth. pose proof (complete_two _ Hr Hk) as Htwo.
  destruct (newHuffmanTree_complete lengths Hr Hk S depth)
    as (t & tr & Hnew & Hrep & Hin & Hdec); [done..|].
  exists t. split; [done|]. intros br Hwf Hbits.
  destruct (complete_tiles lengths Hr Hk) as [Ht Hsp].
  destruct (block_covers 32 0 0 _ (pending br) Ht) as (e & rest & He & Hpend);
    [done|by exists 0|lia| |simpl; lia|lia|].
  { intros Hnil. rewrite Hnil in Hsp. simpl in Hsp. lia. }
  pose proof (tiles_elem _ _ _ Ht He) as (Hlen & _).
  pose proof He as He'. rewrite elem_of_reverse in He'.
  destruct (entry_symbolCode lengths e Hr Hmax He') as (s & Hv & Hs & Hc).
  destruct (Decode_loop_walk t tr 0 (pending br) (Z.of_nat s) rest br
              (Datatypes.S (available br))) as (br' & Hdone & Hrest & _);
    [lia|lia|lia|done| |done|done|rewrite available_pending by done; lia|].
  { rewrite Hpend, <- Hv. by apply Hdec. }
  exists s, (row_len e), (row_code e), br'.
  split_and!; [done|lia|lia|done|done|].
  rewrite Hrest, Hpend. f_equal. destruct e as [[c len] v]. apply stream_0.
Qed.

Lemma complete_code_every_stream_witness :
  ∃ t, newHuffmanTree mergeSorter 32 [2; 2; 1] = Done (t, None) ∧
       ∃ (s : nat) br', Decode t (feed (replicate 32 true)) = Done (Z.of_nat s, br').
Proof.
  destruct (complete_code_every_stream mergeSorter 32 [2; 2; 1])
    as (t & Hnew & Hdec);
    [simpl; lia|repeat constructor; lia|reflexivity|lia|].
  exists t. split; [exact Hnew|].
  destruct (Hdec (feed (replicate 32 true)) (feed_wf _))
    as (s & len & c & br' & _ & _ & _ & Hd & _); [simpl; lia|].
  by exists s, br'.
Defined.

(** ** How many bits [Decode] takes on a tree built without error *)

(** What one side of a split leaves, when the nodes are few enough to be
    counted in 16 bits: the slot of the side in node [k] holds a leaf or the
    first node of the side, the other slot is as before, and the nodes of
    the side link forward. *)
Lemma buildSide_forward depth codes level a b t k nd0 side t' :
  (∀ t0 l r t1 i,
     buildHuffmanNode depth t0 codes level l r = Done (t1, (i, None)) →
     0 ≤ nextNode t0 → nextNode t1 ≤ 65535 →
     forward (nodes t1) (nextNode t0) (nextNode t1)) →
  buildSide (buildHuffmanNode depth t codes level a b)
    t k (b - a =? 1) (value codes) a (setIndex side) (setValue side)
  = Done (t', None) →
  0 ≤ k < nextNode t → nextNode t' ≤ 65535 →
  nodes t !! Z.to_nat k = Some nd0 →
  ∃ nd, nodes t' !! Z.to_nat k = Some nd ∧
        nextNode t ≤ nextNode t' ∧
        (child nd side = invalidNodeValue ∨
         (child nd side = nextNode t ∧ nextNode t < nextNode t')) ∧
        child nd (negb side) = child nd0 (negb side) ∧
        forward (nodes t') (nextNode t) (nextNode t') ∧
        ∀ j : nat, Z.of_nat j < nextNode t → j ≠ Z.to_nat k →
                   nodes t' !! j = nodes t !! j.
Proof.
  unfold buildSide. intros IH H Hk Hmax Hnd0.
  destruct (b - a =? 1).
  - destruct (index (value codes) a) as [v|] eqn:Hv; simplify_eq.
    rewrite bind_Done in H. simplify_eq.
    exists (setValue side v (setIndex side invalidNodeValue nd0)).
    split_and!.
    + by rewrite !setNode_lookup, Hnd0.
    + simpl. lia.
    + left. by destruct side.
    + by destruct side.
    + intros j nd c Hj. simpl in Hj. lia.
    + intros j Hj Hne. by rewrite !setNode_lookup_ne.
  - destruct (buildHuffmanNode _ _ _ _ _ _) as [[t1 [i e]]|] eqn:Hb; simplify_eq.
    rewrite bind_Done in H. simplify_eq.
    pose proof (build_frame _ _ _ _ _ _ _ _ _ Hb) as (_ & _ & Hfr).
    pose proof (build_count _ _ _ _ _ _ _ _ Hb) as [Htwo Hnext].
    pose proof (build_index _ _ _ _ _ _ _ _ Hb) as ->.
    simpl in Hmax.
    assert (uint16 (nextNode t) = nextNode t) as Hu
      by (unfold uint16; apply Z.mod_small; lia).
    exists (setIndex side (uint16 (nextNode t)) nd0). split_and!.
    + by rewrite setNode_lookup, Hfr, Hnd0 by lia.
    + simpl. lia.
    + right. rewrite Hu. simpl. split; [by destruct side|lia].
    + by destruct side.
    + intros j nd c Hj Hnd. simpl in Hj, Hnd.
      rewrite list_lookup_alter_ne in Hnd by lia.
      pose proof (IH _ _ _ _ _ Hb ltac:(simpl; lia) ltac:(lia)) as Hf.
      destruct (Hf j nd c) as [?|?]; [lia|done|by left|right; simpl; lia].
    + intros j Hj Hne. rewrite setNode_lookup_ne by done. by apply Hfr.
Qed.

(** The nodes a call has taken link forward. *)
Lemma build_forward depth : ∀ level t codes l r t' i,
  buildHuffmanNode depth t codes level l r = Done (t', (i, None)) →
  0 ≤ nextNode t → nextNode t' ≤ 65535 →
  forward (nodes t') (nextNode t) (nextNode t').
Proof.
  induction depth as [|depth IH]; intros level t codes l r t' i H Hnext Hmax;
    [discriminate|].
  apply build_inv in H.
  destruct H as [| |fri0 l' r' ? ? ? Hlr Hrec| |fri tl ??? Hk Hleft Hright];
    try discriminate.
  - by eapply IH.
  - destruct (lookup_lt_is_Some_2 (nodes t) (Z.to_nat (nextNode t))) as [nd0 Hnd0];
      [lia|].
    pose proof Hleft as Hleft'. pose proof Hright as Hright'.
    apply buildSide_frame in Hleft' as (_ & Hnl' & _);
      [|simpl; lia|by intros ??? ?%build_frame]. simpl in Hnl'.
    apply buildSide_frame in Hright' as (_ & Hnr & _);
      [|lia|by intros ??? ?%build_frame].
    destruct (buildSide_forward depth codes (uint32 (level + 1)) l fri _ _ nd0 true _
                (λ t0, IH _ t0 codes) Hleft) as (ndl & Hndl & Hnl & Hcl & _ & Hfl & _);
      [simpl; lia|lia|done|].
    destruct (buildSide_forward depth codes (uint32 (level + 1)) fri r _ _ ndl false _
                (λ t0, IH _ t0 codes) Hright) as (ndr & Hndr & _ & Hcr & Hsame & Hfr & Hkeep);
      [simpl in *; lia|lia|done|].
    simpl in Hnl, Hcl, Hfl, Hsame.
    intros k nd b Hkr Hnd.
    destruct (decide (k = nextNode t)) as [->|Hnek].
    + (* the node of this call *)
      rewrite Hndr in Hnd. simplify_eq. destruct b.
      * simpl in *. rewrite Hsame. destruct Hcl as [?|[? ?]]; [by left|right; lia].
      * simpl in *. destruct Hcr as [?|[? ?]]; [by left|right; lia].
    + destruct (decide (k < nextNode tl)) as [Hlow|Hhigh].
      * (* a node of the left side *)
        rewrite Hkeep in Hnd by lia.
        destruct (Hfl k nd b) as [?|?]; [lia|done|by left|right; lia].
      * (* a node of the right side *)
        apply (Hfr k nd b); [lia|done].
Qed.

(** Along forward links the loop of [Decode] reaches a leaf within as many
    bits as there are nodes ahead. *)
Lemma Decode_loop_forward t lo hi :
  forward (nodes t) lo hi → hi ≤ Z.of_nat (length (nodes t)) → 0 ≤ lo →
  ∀ steps br i,
    lo ≤ i < hi → wf_reader br →
    hi - i ≤ Z.of_nat (length (pending br)) → (length (pending br) < steps)%nat →
    ∃ v br', Decode_loop steps t br i = Done (v, br') ∧
             Z.of_nat (length (pending br)) ≤ Z.of_nat (length (pending br')) + (hi - i).
Proof.
  intros Hfw Hhi Hlo. induction steps as [|steps IH]; intros br i Hi Hwf Hbits Hsteps;
    [lia|].
  rewrite Decode_loop_unfold.
  destruct (index_in_range (nodes t) i) as [nd Hnd]; [lia|]. rewrite Hnd, bind_Done.
  apply index_Done in Hnd as [_ Hnd].
  pose proof (Decode_bit_spec br Hwf) as Hbit.
  destruct (pending br) as [|b bs] eqn:Hp; [simpl in Hbits; lia|].
  destruct Hbit as (br1 & -> & Hp1 & Hwf1). rewrite bind_Done. cbv beta iota.
  rewrite b2z_eqb_1. fold (child nd b). fold (childValue nd b).
  simpl in Hbits, Hsteps.
  destruct (Z.eqb_spec (child nd b) invalidNodeValue) as [|Hne].
  - exists (childValue nd b), br1. split; [done|]. rewrite Hp1. simpl. lia.
  - destruct (Hfw i nd b Hi Hnd) as [?|Hch]; [done|].
    destruct (IH br1 (child nd b)) as (v & br' & -> & Hlen);
      [lia|done|rewrite Hp1; lia|rewrite Hp1; lia|].
    exists v, br'. split; [done|]. rewrite Hp1 in Hlen. simpl. lia.
Qed.

(** On a tree that [newHuffmanTree] has built without error from up to
    65536 lengths, [Decode] returns a symbol from every stream that holds
    one bit for every node of the tree, one less than there are lengths,
    and it takes no more bits than that. *)
Theorem Decode_within_nodes S depth lengths t br :
  Z.of_nat (length lengths) ≤ 65536 →
  newHuffmanTree S depth lengths = Done (t, None) →
  wf_reader br →
  Z.of_nat (length lengths) - 1 ≤ Z.of_nat (length (pending br)) →
  ∃ v br', Decode t br = Done (v, br') ∧
           Z.of_nat (length (pending br))
           ≤ Z.of_nat (length (pending br')) + (Z.of_nat (length lengths) - 1).
Proof.
  intros Hmax Hnew Hwf Hbits.
  destruct (nodes_count _ _ _ _ Hnew) as [Hnext Hlen].
  apply newHuffmanTree_Done in Hnew as [Htwo [i Hb]].
  apply build_forward in Hb; [|simpl; lia..]. simpl in Hb.
  destruct (Decode_loop_forward t 0 (nextNode t) Hb ltac:(lia) ltac:(lia)
              (Datatypes.S (available br)) br 0) as (v & br' & Hd & Hl);
    [lia|done|lia|rewrite available_pending by done; lia|].
  exists v, br'. split; [done|]. lia.
Qed.

Lemma Decode_within_nodes_witness :
  ∃ t, newHuffmanTree mergeSorter 33 overfull = Done (t, None) ∧
       ∃ v br', Decode t (feed (replicate 34 true)) = Done (v, br').
Proof.
  eexists. split; [vm_compute; reflexivity|].
  edestruct (Decode_within_nodes mergeSorter 33 overfull)
    as (v & br' & Hd & _);
    [|vm_compute; reflexivity|apply (feed_wf (replicate 34 true))| |by exists v, br'].
  - vm_compute. discriminate.
  - vm_compute. discriminate.
Defined.

(** ** The order of the pairs *)

(** The comparison given to [sort.Slice] leaves one way to sort the pairs:
    every rearrangement of the pairs in which no pair is less than the pair
    before it is the slice [sortPairs], whatever the algorithm that made
    it. *)
Theorem sorted_pairs_unique ps qs :
  Sorted pairLe qs → qs ≡ₚ ps → qs = sortPairs ps.
Proof. apply sortPairs_unique. Qed.

Lemma sorted_pairs_unique_witness :
  [mkPair 2 1; mkPair 0 2; mkPair 1 2] = sortPairs (makePairs [2; 2; 1]).
Proof.
  apply sorted_pairs_unique.
  - repeat constructor.
  - change (makePairs [2; 2; 1]) with [mkPair 0 2; mkPair 1 2; mkPair 2 1].
    apply Permutation_cons_append.
Defined.

(** ** The nodes [newHuffmanTree] leaves unused *)

(** Every node from [nextNode] on, in a tree that [newHuffmanTree] returns
    with or without error, is the zero node the slice was made with. *)
Theorem unused_nodes_zero S depth lengths t err (j : nat) :
  newHuffmanTree S depth lengths = Done (t, err) →
  nextNode t ≤ Z.of_nat j → (j < length lengths)%nat →
  nodes t !! j = Some zeroNode.
Proof.
  intros [_ [i Hb]]%newHuffmanTree_Done Hj Hlt.
  rewrite (build_above _ _ _ _ _ _ _ _ _ Hb j Hj). simpl.
  by apply lookup_replicate_2.
Qed.

Lemma unused_nodes_zero_witness :
  ∃ t, newHuffmanTree mergeSorter 32 [2; 2; 1] = Done (t, None) ∧
       nodes t !! 2%nat = Some zeroNode.
Proof.
  eexists. split; [vm_compute; reflexivity|].
  eapply (unused_nodes_zero mergeSorter 32 [2; 2; 1] _ None 2);
    [vm_compute; reflexivity|simpl; lia|simpl; lia].
Defined.

(** ** Calls beyond bit position 31 *)

Lemma testBit_beyond level : 32 ≤ level < 2 ^ 32 → testBit level = 0.
Proof.
  intros Hl. unfold testBit, shl32, uint32.
  replace (31 - level) with (2 ^ 32 + 31 - level + (-1) * 2 ^ 32) by lia.
  rewrite Z.mod_add by lia. rewrite Z.mod_small by lia.
  destruct (Z.ltb_spec (2 ^ 32 + 31 - level) 32); [lia|done].
Qed.

Lemma findFirstRight_none cs dflt : ∀ steps i,
  0 ≤ i → i + Z.of_nat steps ≤ Z.of_nat (length cs) →
  findFirstRight cs 0 i steps dflt = Done dflt.
Proof.
  induction steps as [|steps IH]; intros i Hi Hlen; [done|]. simpl.
  destruct (index_in_range cs i) as [c ->]; [lia|].
  rewrite bind_Done, Z.land_0_r. simpl. apply IH; lia.
Qed.

Lemma build_beyond_31 depth t codes level r :
  2 ≤ r → r ≤ Z.of_nat (length (code codes)) →
  32 ≤ level → level + Z.of_nat depth ≤ 2 ^ 32 →
  buildHuffmanNode depth t codes level 0 r = Fault TooDeep.
Proof.
  intros Hr Hlen. revert level.
  induction depth as [|depth IH]; intros level Hlevel Hwrap; [done|].
  rewrite build_unfold, testBit_beyond by lia.
  rewrite findFirstRight_none by lia. rewrite bind_Done.
  replace (r - 0 - 0 =? 0) with false by (symmetry; apply Z.eqb_neq; lia).
  replace (r - (r - 0) =? 0) with true by (symmetry; apply Z.eqb_eq; lia).
  cbv beta iota zeta delta [orb].
  replace (Z.of_nat (length (code codes)) <? 2) with false
    by (symmetry; apply Z.ltb_ge; lia).
  replace (level =? 31) with false by (symmetry; apply Z.eqb_neq; lia).
  replace (r - 0) with r by lia.
  destruct depth as [|depth']; [done|].
  replace (uint32 (level + 1)) with (level + 1)
    by (unfold uint32; rewrite Z.mod_small; lia).
  apply IH; lia.
Qed.

(** A call at a bit position from 32 on, over a range of two or more
    entries that starts at index 0, makes the same call one bit position
    further, whatever the codes are: it does not return before the bit
    position has wrapped around at [2 ^ 32]. *)
Theorem recursion_beyond_31 depth t codes level r :
  2 ≤ r → r ≤ Z.of_nat (length (code codes)) →
  32 ≤ level → level + Z.of_nat depth ≤ 2 ^ 32 →
  buildHuffmanNode depth t codes level 0 r = Fault TooDeep.
Proof. apply build_beyond_31. Qed.

Lemma recursion_beyond_31_witness :
  buildHuffmanNode 1000 (mkTree (replicate 3 zeroNode) 0)
    (of_rows [(0, 1, 0); (0, 32, 2); (1, 32, 1)]) 32 0 2 = Fault TooDeep.
Proof.
  apply recursion_beyond_31; [lia|simpl; lia|lia|lia].
Defined.

(** When the nested call for the left side of a split runs out of depth, so
    does the call. *)
Lemma build_left_too_deep depth t codes level l r fri :
  findFirstRight (code codes) (testBit level) l (Z.to_nat (r - l)) (r - l)
    = Done fri →
  2 ≤ fri - l → fri < r → 0 ≤ nextNode t < Z.of_nat (length (nodes t)) →
  buildHuffmanNode depth (mkTree (nodes t) (nextNode t + 1)) codes
    (uint32 (level + 1)) l fri = Fault TooDeep →
  buildHuffmanNode (S depth) t codes level l r = Fault TooDeep.
Proof.
  intros Hfind Hleft Hright Hk Hsub. rewrite build_unfold, Hfind, bind_Done.
  replace (fri - l =? 0) with false by (symmetry; apply Z.eqb_neq; lia).
  replace (r - fri =? 0) with false by (symmetry; apply Z.eqb_neq; lia).
  cbv beta iota zeta delta [orb].
  destruct (index_in_range (nodes t) (nextNode t) Hk) as [nd ->].
  rewrite bind_Done. unfold buildSide at 2.
  replace (fri - l =? 1) with false by (symmetry; apply Z.eqb_neq; lia).
  by rewrite Hsub.
Qed.

(** The sorted codes of [wrapping], whatever the sorting algorithm. *)
Lemma wrapping_codes (S : sorter) :
  code (sort_Sort S (assignCodes (sortPairs (makePairs wrapping))))
  = 0 :: 0 :: ((λ j : nat, 2 ^ Z.of_nat j) <$> seq 0 32).
Proof.
  unfold sort_Sort. simpl.
  apply (Sorted_unique Z.le).
  - apply Sorted_fmap with (R1 := codeLe); [done|apply sort_sorted].
  - vm_compute. repeat constructor; discriminate.
  - rewrite (sort_perm S).
    rewrite <- (merge_sort_Permutation codeLe
                  (rows (assignCodes (sortPairs (makePairs wrapping))))).
    by vm_compute.
Qed.

(** One step down the left sides of the splits of [wrapping]. *)
Ltac left_side_step Hcode Hlen :=
  first
    [ reflexivity
    | eapply build_left_too_deep;
      [ rewrite Hcode; vm_compute; reflexivity
      | lia | lia | cbn [nodes nextNode]; rewrite ?Hlen; lia
      | cbn [nodes nextNode] ] ].

(** There is an array of lengths, each in 1..32, on which the recursion runs
    away: on [wrapping], with every sorting algorithm, [newHuffmanTree] has
    not returned after [2 ^ 32] nested calls of [buildHuffmanNode].  The
    call at bit position 31 splits the two entries of code 0 from the entry
    of code 1, and the call for the two at bit position 32 repeats itself. *)
Theorem recursion_runs_away S depth :
  Z.of_nat depth ≤ 2 ^ 32 →
  lengthsInRange wrapping ∧
  newHuffmanTree S depth wrapping = Fault TooDeep.
Proof.
  intros Hdepth. split.
  { unfold wrapping. apply Forall_app. split; [repeat constructor; lia|].
    apply Forall_app. split; [|repeat constructor; lia].
    apply Forall_fmap, Forall_forall. intros j Hj%elem_of_seq. simpl. lia. }
  unfold newHuffmanTree.
  change (Z.of_nat (length wrapping) <? 2) with false. cbv iota.
  pose proof (wrapping_codes S) as Hcode.
  assert (length (code (sort_Sort S (assignCodes (sortPairs (makePairs wrapping)))))
          = 34%nat) as Hlen by (by rewrite Hcode).
  revert Hcode Hlen.
  generalize (sort_Sort S (assignCodes (sortPairs (makePairs wrapping)))) as codes.
  intros codes Hcode Hlen. rewrite Hlen.
  assert (∀ ns, length ns = 34%nat →
            buildHuffmanNode depth (mkTree ns 0) codes 0 0 (Z.of_nat 34)
            = Fault TooDeep) as ->; [|done|by rewrite length_replicate].
  intros ns Hns. change (Z.of_nat 34) with 34.
  do 32 (destruct depth as [|depth]; [repeat left_side_step Hcode Hns|]).
  do 32 left_side_step Hcode Hns.
  match goal with
  | |- buildHuffmanNode _ _ _ ?level _ _ = _ =>
      replace level with 32 by (vm_compute; reflexivity)
  end.
  apply build_beyond_31; [lia|rewrite Hlen; lia|lia|lia].
Qed.

Lemma recursion_runs_away_witness :
  newHuffmanTree tieSorter 1000 wrapping = Fault TooDeep.
Proof.
  apply (recursion_runs_away tieSorter 1000). lia.
Defined.

(** ** The leaves of a tree built without error *)

Lemma slice_single {A} (xs : list A) a b v :
  index xs a = Done v → b - a = 1 → slice xs a b = [v].
Proof.
  intros [Ha Hv]%index_Done Hb. unfold slice. rewrite Hb.
  change (Z.to_nat 1) with 1%nat.
  by rewrite (drop_S _ _ _ Hv).
Qed.

Lemma slice_app {A} (xs : list A) l m r :
  0 ≤ l ≤ m → m ≤ r → slice xs l m ++ slice xs m r = slice xs l r.
Proof.
  intros Hl Hr. unfold slice.
  replace (Z.to_nat (r - l)) with (Z.to_nat (m - l) + Z.to_nat (r - m))%nat by lia.
  rewrite <- take_take_drop, drop_drop. do 3 f_equal. lia.
Qed.

Lemma slice_all {A} (xs : list A) : slice xs 0 (Z.of_nat (length xs)) = xs.
Proof. unfold slice. simpl. apply take_ge. lia. Qed.

(** The bits that lead to a leaf. *)
Lemma walk_leaves tr v :
  v ∈ leaves tr →
  ∃ bs, Z.of_nat (length bs) ≤ inner tr ∧
        ∀ rest, walk tr (bs ++ rest) = Some (v, rest).
Proof.
  induction tr as [w|a IHa b IHb]; simpl.
  - intros ->%list_elem_of_singleton. by exists [].
  - pose proof (inner_nonneg a). pose proof (inner_nonneg b).
    intros [Hin|Hin]%elem_of_app.
    + destruct (IHa Hin) as (bs & Hlen & Hw). exists (true :: bs).
      split; [simpl; lia|done].
    + destruct (IHb Hin) as (bs & Hlen & Hw). exists (false :: bs).
      split; [simpl; lia|done].
Qed.

(** The two ways a call returns without error: it leaves the range to the
    call one bit position down, or it splits the range. *)
Lemma build_inv_ok depth t codes level l r t' i :
  buildHuffmanNode (S depth) t codes level l r = Done (t', (i, None)) →
  buildHuffmanNode depth t codes (uint32 (level + 1)) l r = Done (t', (i, None)) ∨
  ∃ fri tl,
    fri - l ≠ 0 ∧ r - fri ≠ 0 ∧ 0 ≤ nextNode t < Z.of_nat (length (nodes t)) ∧
    buildSide (buildHuffmanNode depth (mkTree (nodes t) (nextNode t + 1)) codes
                 (uint32 (level + 1)) l fri)
      (mkTree (nodes t) (nextNode t + 1)) (nextNode t) (fri - l =? 1)
      (value codes) l (setIndex true) (setValue true) = Done (tl, None) ∧
    buildSide (buildHuffmanNode depth tl codes (uint32 (level + 1)) fri r)
      tl (nextNode t) (r - fri =? 1) (value codes) fri
      (setIndex false) (setValue false) = Done (t', None) ∧
    i = uint16 (nextNode t).
Proof.
  rewrite build_unfold. intros H.
  destruct (findFirstRight _ _ _ _ _) as [fri|] eqn:Hfri; [|discriminate].
  rewrite bind_Done in H.
  destruct (Z.eqb_spec (fri - l) 0) as [Hl|Hl];
    [|destruct (Z.eqb_spec (r - fri) 0) as [Hr|Hr]];
    cbv beta iota zeta delta [orb] in H.
  - destruct (_ <? 2); [discriminate|]. destruct (level =? 31); [discriminate|].
    left. by replace fri with l in H by lia.
  - destruct (_ <? 2); [discriminate|]. destruct (level =? 31); [discriminate|].
    left. by replace fri with r in H by lia.
  - right. destruct (index (nodes t) (nextNode t)) as [nd|] eqn:Hnd; [|discriminate].
    apply index_bounds in Hnd. rewrite bind_Done in H.
    match type of H with (mbind _ ?m) = _ => destruct m as [[tl el]|] eqn:Hleft end;
      [|discriminate].
    rewrite bind_Done in H. cbv beta iota in H. destruct el as [e|]; [discriminate|].
    match type of H with (mbind _ ?m) = _ => destruct m as [[tr er]|] eqn:Hright end;
      [|discriminate].
    rewrite bind_Done in H. cbv beta iota in H. simplify_eq.
    by exists fri, tl.
Qed.

Lemma buildSide_leaves depth codes level a b t k nd0 side t' :
  leavesSpec depth codes →
  buildSide (buildHuffmanNode depth t codes level a b)
    t k (b - a =? 1) (value codes) a (setIndex side) (setValue side)
  = Done (t', None) →
  0 ≤ k < nextNode t → nextNode t' ≤ 65535 → 0 ≤ a →
  nodes t !! Z.to_nat k = Some nd0 →
  ∃ nd tr, nodes t' !! Z.to_nat k = Some nd ∧
           sideHolds side tr (nextNode t) nd0 nd ∧
           repr (nodes t') (nextNode t) tr ∧
           nextNode t' = nextNode t + inner tr ∧ inner tr = b - a - 1 ∧
           leaves tr = slice (value codes) a b ∧
           ∀ j : nat, Z.of_nat j < nextNode t → j ≠ Z.to_nat k →
                      nodes t' !! j = nodes t !! j.
Proof.
  unfold buildSide. intros IH H Hk Hmax Ha Hnd0.
  destruct (Z.eqb_spec (b - a) 1) as [Hone|Hmore].
  - destruct (index (value codes) a) as [v|] eqn:Hv; simplify_eq.
    rewrite bind_Done in H. simplify_eq.
    exists (setValue side v (setIndex side invalidNodeValue nd0)), (Leaf v).
    split_and!.
    + by rewrite !setNode_lookup, Hnd0.
    + by destruct side.
    + done.
    + simpl. lia.
    + simpl. lia.
    + simpl. symmetry. by apply slice_single.
    + intros j Hj Hne. by rewrite !setNode_lookup_ne.
  - destruct (buildHuffmanNode _ _ _ _ _ _) as [[t1 [i e]]|] eqn:Hb; simplify_eq.
    rewrite bind_Done in H. simplify_eq.
    pose proof (build_frame _ _ _ _ _ _ _ _ _ Hb) as (_ & _ & Hfr).
    pose proof (build_count _ _ _ _ _ _ _ _ Hb) as [Htwo Hnext].
    pose proof (build_index _ _ _ _ _ _ _ _ Hb) as ->.
    simpl in Hmax.
    destruct (IH _ _ _ _ _ _ Hb) as (tr & Hrep & Hin & Hlv); [lia..|].
    exists (setIndex side (uint16 (nextNode t)) nd0), tr. split_and!.
    + by rewrite setNode_lookup, Hfr, Hnd0 by lia.
    + destruct tr as [w|a' b']; [simpl in Hin; lia|]. by destruct side.
    + apply (repr_frame (nodes t1)); [lia|done|].
      intros j Hj. apply setNode_lookup_ne. lia.
    + simpl. lia.
    + done.
    + done.
    + intros j Hj Hne. rewrite setNode_lookup_ne by done. by apply Hfr.
Qed.

Lemma build_leaves depth codes : leavesSpec depth codes.
Proof.
  induction depth as [|depth IH]; intros level t l r t' i H Hnext Hmax Hl;
    [discriminate|].
  apply build_inv_ok in H as [Hskip|(fri & tl & Hfl & Hfr & Hk & Hleft & Hright & ->)].
  - by eapply IH.
  - destruct (lookup_lt_is_Some_2 (nodes t) (Z.to_nat (nextNode t))) as [nd0 Hnd0];
      [lia|].
    pose proof Hleft as Hleft'. pose proof Hright as Hright'.
    apply buildSide_frame in Hleft' as (_ & Hnl' & _);
      [|simpl; lia|by intros ??? ?%build_frame]. simpl in Hnl'.
    apply buildSide_frame in Hright' as (_ & Hnr & _);
      [|lia|by intros ??? ?%build_frame].
    destruct (buildSide_leaves depth codes (uint32 (level + 1)) l fri _ _ nd0 true _
                IH Hleft)
      as (ndl & a & Hndl & Hsl & Hrl & Hnl & Hia & Hla & _);
      [simpl; lia|lia|done|done|].
    simpl in Hnl, Hrl, Hsl.
    pose proof (inner_nonneg a).
    destruct (buildSide_leaves depth codes (uint32 (level + 1)) fri r _ _ ndl false _
                IH Hright)
      as (ndr & b & Hndr & Hsr & Hrr & Hnrr & Hib & Hlb & Hkeep);
      [lia|lia|lia|done|].
    pose proof (inner_nonneg b).
    exists (Node a b). split_and!.
    + simpl. exists ndr. destruct Hsl as (Hsa & _ & _), Hsr as (Hsb & Hil & Hvl).
      rewrite Hil, Hvl. split_and!; [done|done|by rewrite <- Hnl| |by rewrite <- Hnl].
      apply (repr_frame (nodes tl)); [lia|done|].
      intros j Hj. apply Hkeep; lia.
    + simpl. lia.
    + simpl. rewrite Hla, Hlb. apply slice_app; lia.
Qed.

(** The symbols of the sorted codes are the symbols of the alphabet. *)
Lemma sorted_values S lengths (s : nat) :
  (s < length lengths)%nat →
  uint16 (Z.of_nat s) ∈ value (sort_Sort S (assignCodes (sortPairs (makePairs lengths)))).
Proof.
  intros Hs. unfold sort_Sort, assignCodes. simpl. rewrite rows_of_rows.
  rewrite (sort_perm S), assignLoop_values, sortPairs_perm.
  destruct (lookup_lt_is_Some_2 lengths s Hs) as [len Hlen].
  apply (list_elem_of_fmap_2' _ _ (mkPair (uint16 (Z.of_nat s)) len)); [|done].
  apply makePairs_elem. by exists s.
Qed.

(** No symbol is lost: in a tree that [newHuffmanTree] has built without
    error from up to 65536 lengths, every symbol of the alphabet is at a
    leaf.  There are bits, one at least and no more than the tree has
    nodes, that make [Decode] return the symbol from every stream that
    begins with them. *)
Theorem every_symbol_decodable S depth lengths t (s : nat) :
  Z.of_nat (length lengths) ≤ 65536 →
  newHuffmanTree S depth lengths = Done (t, None) →
  (s < length lengths)%nat →
  ∃ bits, bits ≠ [] ∧ Z.of_nat (length bits) ≤ Z.of_nat (length lengths) - 1 ∧
    ∀ br rest, wf_reader br → pending br = bits ++ rest →
      ∃ br', Decode t br = Done (Z.of_nat s, br') ∧ pending br' = rest.
Proof.
  intros Hmax Hnew Hs.
  destruct (nodes_count _ _ _ _ Hnew) as [Hnext Hlen].
  apply newHuffmanTree_Done in Hnew as [Htwo [i Hb]].
  pose proof (sorted_values S lengths s Hs) as Hin.
  pose proof (sorted_codes_length S lengths) as Hcl.
  assert (length (value (sort_Sort S (assignCodes (sortPairs (makePairs lengths)))))
          = length lengths) as Hvl.
  { unfold sort_Sort, of_rows in *. simpl in *. by rewrite length_fmap in *. }
  destruct (build_leaves _ _ _ _ _ _ _ _ Hb) as (tr & Hrep & Hinner & Hlv);
    [simpl; lia|lia|lia|]. simpl in Hrep.
  rewrite <- Hvl, slice_all in Hlv. rewrite <- Hlv in Hin.
  assert (uint16 (Z.of_nat s) = Z.of_nat s) as Hu
    by (unfold uint16; apply Z.mod_small; lia).
  rewrite Hu in Hin.
  destruct (walk_leaves _ _ Hin) as (bits & Hbl & Hwalk).
  exists bits. split_and!.
  - intros ->. specialize (Hwalk []). destruct tr; simpl in *; [lia|done].
  - lia.
  - intros br rest Hwf Hpend. unfold Decode.
    destruct (Decode_loop_walk t tr 0 (pending br) (Z.of_nat s) rest br
                (Datatypes.S (available br))) as (br' & Hdone & Hrest & _);
      [lia|lia|lia|done| |done|done|rewrite available_pending by done; lia|].
    + rewrite Hpend. apply Hwalk.
    + by exists br'.
Qed.

Lemma every_symbol_decodable_witness :
  let t := mkTree [mkNode 1 invalidNodeValue 0 1; mkNode invalidNodeValue 2 3 0;
                   mkNode invalidNodeValue invalidNodeValue 0 2; zeroNode] 3 in
  newHuffmanTree mergeSorter 33 [1; 1; 1; 32] = Done (t, None) ∧
  ∃ bits, bits ≠ [] ∧
    ∀ br rest, wf_reader br → pending br = bits ++ rest →
      ∃ br', Decode t br = Done (2, br') ∧ pending br' = rest.
Proof.
  intros t. split; [vm_compute; reflexivity|].
  destruct (every_symbol_decodable mergeSorter 33 [1; 1; 1; 32] t 2)
    as (bits & Hne & _ & Hdec);
    [vm_compute; discriminate|vm_compute; reflexivity|simpl; lia|].
  exists bits. split; [exact Hne|exact Hdec].
Defined.

(** ** The code-assignment loop in closed form *)

Lemma codesOf_lookup pre p post :
  codesOf (pre ++ p :: post) !! length pre
  = Some (uint32 (weight post), pair_length p, pair_value p).
Proof. induction pre as [|q pre IH]; [done|]. simpl. exact IH. Qed.

(** What the code-assignment loop writes, when every length is in 1..32:
    the entry of the pair at index [i] of the sorted pairs carries the
    pair's length and symbol, and its code is the sum, modulo [2 ^ 32], of
    the widths [2 ^ (32 - length)] of the pairs behind it. *)
Theorem assigned_code_closed_form lengths pre p post :
  lengthsInRange lengths →
  sortPairs (makePairs lengths) = pre ++ p :: post →
  index (assigned lengths) (Z.of_nat (length pre))
  = Done (uint32 (kraft (pair_length <$> post)), pair_length p, pair_value p).
Proof.
  intros Hr Hps. rewrite assigned_sorted, Hps by done.
  apply index_Done. split; [lia|]. rewrite Nat2Z.id. apply codesOf_lookup.
Qed.

Lemma assigned_code_closed_form_witness :
  index (assigned [2; 2; 1]) 1 = Done (uint32 (kraft [2]), 2, 0).
Proof.
  apply (assigned_code_closed_form [2; 2; 1] [mkPair 2 1] (mkPair 0 2) [mkPair 1 2]);
    [repeat constructor; lia|vm_compute; reflexivity].
Defined.
